(** * MeshBlockData: the per-block variable container of parthenon

    A shallow embedding of [src/interface/meshblock_data.hpp] and the
    properties of its registry part: the ordered variable sequences and the
    name maps, the queries on them, sparse allocation, derivation of one
    container from another, the delegating pack overloads, the weak
    back-reference to the mesh block and the equality operator.

    Conventions of the embedding.
    - A [std::shared_ptr<X>] is the address ([loc]) of an object of a heap;
      two pointers alias exactly when the addresses are equal.  The heaps of
      cell variables, face variables and mesh blocks form the [World].
    - A C++ reference to an object is modelled by the address of the object.
    - A member function is a computation over [State], the pair of the
      receiving object ([this]) and the world.  A computation returns,
      throws ([std::runtime_error], with the state reached at the throw), or
      has no defined behaviour (a dangling or out-of-range access).  A
      container passed as an argument is another object than the receiver.
    - [std::map<std::string, V>] is a [gmap string V]; iterating it visits
      the keys in increasing order ([std_map_keys]).
    - The header is read statement by statement.  [var.IsSparse()] on a
      shared pointer is read as [var->IsSparse()], and a non-const reference
      returned from a const member is read as the reference.  Which
      declaration a call of an overloaded pack routine reaches is decided
      by a model of overload resolution. *)

From Stdlib Require Import ZArith.

From stdpp Require Import base option list gmap strings sorting.

Local Open Scope string_scope.

(** ** Exceptions and the computation monad *)

(** Everything thrown by the header is a [std::runtime_error];
    [PARTHENON_THROW(msg)] and a failed [PARTHENON_REQUIRE_THROWS(c, msg)]
    throw one whose message is built from [msg] (the decoration with file
    and line added by the macros of utils/error_checking.hpp is left out). *)
Inductive exception : Type :=
  | runtime_error (what : string).

#[global] Instance exception_eq_dec : EqDecision exception.
Proof. solve_decision. Defined.

Inductive outcome (S A : Type) : Type :=
  | Returns (a : A) (s : S)
  | Throws (e : exception) (s : S)
  | Undefined.

Arguments Returns {S A} a s.

Arguments Throws {S A} e s.

Arguments Undefined {S A}.

Definition M (S A : Type) : Type := S -> outcome S A.

Definition ret {S A} (a : A) : M S A := fun s => Returns a s.

Definition bind {S A B} (m : M S A) (k : A -> M S B) : M S B :=
  fun s =>
    match m s with
    | Returns a s' => k a s'
    | Throws e s' => Throws e s'
    | Undefined => Undefined
    end.

Definition throw {S A} (e : exception) : M S A := fun s => Throws e s.

Definition undefined {S A} : M S A := fun _ => Undefined.

Definition get_state {S} : M S S := fun s => Returns s s.

Definition put_state {S} (s : S) : M S unit := fun _ => Returns tt s.

#[global] Instance M_ret {S} : MRet (M S) := fun A a => ret a.
#[global] Instance M_bind {S} : MBind (M S) := fun A B k m => bind m k.

(** [for (const auto &x : l) body(x);] *)
Fixpoint foreach {S A} (l : list A) (body : A -> M S unit) : M S unit :=
  match l with
  | [] => ret tt
  | x :: l' => body x;; foreach l' body
  end.

Definition PARTHENON_THROW {S A} (msg : string) : M S A :=
  throw (runtime_error msg).

Definition PARTHENON_REQUIRE_THROWS {S} (cond : bool) (msg : string) :
    M S unit :=
  if cond then ret tt else throw (runtime_error msg).

(** ** Collaborators declared outside the header *)

Definition loc : Type := positive.

(** [Real] is the floating-point type of the build.  Values of it are only
    stored and passed on here; they are carried as their bit pattern. *)
Definition Real : Type := Z.

(** Modelled from the spec: the metadata of interface/metadata.hpp, which is
    not part of the sources, is "an opaque capability set per variable"
    of which only membership is tested, with at least the tags Sparse and
    OneCopy. *)
Inductive MetadataFlag : Type :=
  | OneCopy
  | Sparse
  | OtherFlag (id : nat).

#[global] Instance MetadataFlag_eq_dec : EqDecision MetadataFlag.
Proof. solve_decision. Defined.

Record Metadata : Type := mkMetadata { bits_ : list MetadataFlag }.

Definition Metadata_IsSet (m : Metadata) (f : MetadataFlag) : bool :=
  bool_decide (f ∈ bits_ m).

(** Modelled from the spec: the dense variable record of
    interface/variable.hpp: a label, immutable metadata, the allocation
    state and the numeric buffer. *)
Record CellVariable : Type := mkCellVariable {
  label : string;
  m_ : Metadata;
  is_allocated_ : bool;
  data : list Real
}.

Definition IsSet (v : CellVariable) (f : MetadataFlag) : bool :=
  Metadata_IsSet (m_ v) f.

Definition IsSparse (v : CellVariable) : bool := IsSet v Sparse.

Definition IsAllocated_var (v : CellVariable) : bool := is_allocated_ v.

(** Modelled from the spec: the face variable record, one buffer per
    direction. *)
Record FaceVariable : Type := mkFaceVariable {
  flabel : string;
  fm_ : Metadata;
  fdata : list Real * list Real * list Real
}.

Definition FaceIsSet (v : FaceVariable) (f : MetadataFlag) : bool :=
  Metadata_IsSet (fm_ v) f.

(** mesh/domain.hpp is not part of the sources: an [IndexShape] is taken
    with its three accessors as given. *)
Record IndexRange : Type := mkIndexRange { s : Z; e : Z }.

Inductive IndexDomain : Type :=
  | entire | interior
  | inner_x1 | outer_x1 | inner_x2 | outer_x2 | inner_x3 | outer_x3.

Record IndexShape : Type := mkIndexShape {
  IndexShape_GetBoundsI : IndexDomain -> IndexRange;
  IndexShape_GetBoundsJ : IndexDomain -> IndexRange;
  IndexShape_GetBoundsK : IndexDomain -> IndexRange
}.

(** Of the mesh block only what the container touches: the cell bounds and
    the time step stored by [MeshBlock::SetAllowedDt]. *)
Record MeshBlock : Type := mkMeshBlock {
  cellbounds : IndexShape;
  new_block_dt_ : Real
}.

Definition MeshBlock_SetAllowedDt (dt : Real) (b : MeshBlock) : MeshBlock :=
  {| cellbounds := cellbounds b; new_block_dt_ := dt |}.

(** ** The world: the heaps behind the shared pointers *)

(** [blocks] holds the mesh blocks that are alive, that is, owned by at
    least one [shared_ptr]; a block leaves it when its last owner lets go. *)
Record World : Type := mkWorld {
  cells : gmap loc CellVariable;
  faces : gmap loc FaceVariable;
  blocks : gmap loc MeshBlock
}.

Definition set_cells (f : gmap loc CellVariable -> gmap loc CellVariable)
    (w : World) : World :=
  {| cells := f (cells w); faces := faces w; blocks := blocks w |}.

Definition set_blocks (f : gmap loc MeshBlock -> gmap loc MeshBlock)
    (w : World) : World :=
  {| cells := cells w; faces := faces w; blocks := f (blocks w) |}.

(** [std::weak_ptr<MeshBlock>]: empty, or observing a block. *)
Definition weak_ptr : Type := option loc.

Definition expired (w : World) (p : weak_ptr) : bool :=
  match p with
  | None => true
  | Some b => bool_decide (blocks w !! b = None)
  end.

(** [p.lock()]: the owning pointer, empty when [p] has expired. *)
Definition lock (w : World) (p : weak_ptr) : option loc :=
  if expired w p then None else p.

(** ** The container *)

(** The private members of [MeshBlockData<T>].  [debug] and the three pack
    caches are used by no member function of the header and are left
    out. *)
Record MeshBlockData : Type := mkMeshBlockData {
  pmy_block : weak_ptr;
  varVector_ : list loc;
  faceVector_ : list loc;
  varMap_ : gmap string loc;
  faceMap_ : gmap string loc
}.

(** [MeshBlockData<T>() = default] *)
Definition MeshBlockData_default : MeshBlockData :=
  {| pmy_block := None; varVector_ := []; faceVector_ := [];
     varMap_ := ∅; faceMap_ := ∅ |}.

Record State : Type := mkState { this : MeshBlockData; world : World }.

Definition get_this : M State MeshBlockData := fun st => Returns (this st) st.

Definition get_world : M State World := fun st => Returns (world st) st.

Definition modify_this (f : MeshBlockData -> MeshBlockData) : M State unit :=
  fun st => Returns tt {| this := f (this st); world := world st |}.

Definition modify_world (f : World -> World) : M State unit :=
  fun st => Returns tt {| this := this st; world := f (world st) |}.

(** [*p] for a pointer to a cell variable, a face variable, a block. *)
Definition deref_cell (p : loc) : M State CellVariable :=
  fun st => match cells (world st) !! p with
            | Some v => Returns v st
            | None => Undefined
            end.

Definition deref_face (p : loc) : M State FaceVariable :=
  fun st => match faces (world st) !! p with
            | Some v => Returns v st
            | None => Undefined
            end.

Definition deref_block (p : loc) : M State MeshBlock :=
  fun st => match blocks (world st) !! p with
            | Some v => Returns v st
            | None => Undefined
            end.

(** A member function called on another object, which it may not change
    ([other->f()] with [other] a pointer to a const-used container). *)
Definition call_on {A} (other : MeshBlockData) (m : M State A) : M State A :=
  fun st =>
    match m {| this := other; world := world st |} with
    | Returns a st' => Returns a {| this := this st; world := world st' |}
    | Throws ex st' => Throws ex {| this := this st; world := world st' |}
    | Undefined => Undefined
    end.

(** ** Member functions *)

Definition GetBlockPointer : M State loc :=
  st ← get_state;
  if expired (world st) (pmy_block (this st))
  then PARTHENON_THROW "Invalid pointer to MeshBlock!"
  else match lock (world st) (pmy_block (this st)) with
       | Some b => mret b
       | None => undefined
       end.

Definition GetParentPointer : M State loc := GetBlockPointer.

(** [GetBlockPointer()->SetAllowedDt(dt)]; mesh/meshblock.hpp is not part of
    the sources, [MeshBlock::SetAllowedDt] is taken to store its argument. *)
Definition SetAllowedDt (dt : Real) : M State unit :=
  b ← GetBlockPointer;
  _ ← deref_block b;
  modify_world (set_blocks (alter (MeshBlock_SetAllowedDt dt) b)).

Definition GetBoundsI (domain : IndexDomain) : M State IndexRange :=
  b ← GetBlockPointer;
  blk ← deref_block b;
  mret (IndexShape_GetBoundsI (cellbounds blk) domain).

Definition GetBoundsJ (domain : IndexDomain) : M State IndexRange :=
  b ← GetBlockPointer;
  blk ← deref_block b;
  mret (IndexShape_GetBoundsJ (cellbounds blk) domain).

Definition GetBoundsK (domain : IndexDomain) : M State IndexRange :=
  b ← GetBlockPointer;
  blk ← deref_block b;
  mret (IndexShape_GetBoundsK (cellbounds blk) domain).

Definition set_pmy_block (p : weak_ptr) (c : MeshBlockData) : MeshBlockData :=
  {| pmy_block := p; varVector_ := varVector_ c; faceVector_ := faceVector_ c;
     varMap_ := varMap_ c; faceMap_ := faceMap_ c |}.

(** [void SetBlockPointer(std::weak_ptr<MeshBlock> pmb)] *)
Definition SetBlockPointer (pmb : weak_ptr) : M State unit :=
  modify_this (set_pmy_block pmb).

(** [void SetBlockPointer(const std::shared_ptr<MeshBlockData<T>> &other)]:
    [pmy_block = other->GetBlockPointer()]. *)
Definition SetBlockPointer_from (other : MeshBlockData) : M State unit :=
  b ← call_on other GetBlockPointer;
  modify_this (set_pmy_block (Some b)).

Definition push_var (var : loc) (c : MeshBlockData) : MeshBlockData :=
  {| pmy_block := pmy_block c; varVector_ := (varVector_ c ++ [var])%list;
     faceVector_ := faceVector_ c;
     varMap_ := varMap_ c; faceMap_ := faceMap_ c |}.

Definition assign_varMap (l : string) (var : loc) (c : MeshBlockData) :
    MeshBlockData :=
  {| pmy_block := pmy_block c; varVector_ := varVector_ c;
     faceVector_ := faceVector_ c;
     varMap_ := <[l := var]> (varMap_ c); faceMap_ := faceMap_ c |}.

Definition push_face (var : loc) (c : MeshBlockData) : MeshBlockData :=
  {| pmy_block := pmy_block c; varVector_ := varVector_ c;
     faceVector_ := (faceVector_ c ++ [var])%list;
     varMap_ := varMap_ c; faceMap_ := faceMap_ c |}.

Definition assign_faceMap (l : string) (var : loc) (c : MeshBlockData) :
    MeshBlockData :=
  {| pmy_block := pmy_block c; varVector_ := varVector_ c;
     faceVector_ := faceVector_ c;
     varMap_ := varMap_ c; faceMap_ := <[l := var]> (faceMap_ c) |}.

(** [void Add(std::shared_ptr<CellVariable<T>> var)]:
    [varVector_.push_back(var); varMap_[var->label()] = var;] *)
Definition Add (var : loc) : M State unit :=
  modify_this (push_var var);;
  v ← deref_cell var;
  modify_this (assign_varMap (label v) var).

(** [void Add(std::shared_ptr<FaceVariable<T>> var)] *)
Definition Add_face (var : loc) : M State unit :=
  modify_this (push_face var);;
  v ← deref_face var;
  modify_this (assign_faceMap (flabel v) var).

(** [varMap_.count(label) > 0] *)
Definition HasCellVariable (l : string) : M State bool :=
  c ← get_this;
  mret (bool_decide (is_Some (varMap_ c !! l))).

Definition GetCellVariableVector : M State (list loc) :=
  c ← get_this; mret (varVector_ c).

Definition GetCellVariableMap : M State (gmap string loc) :=
  c ← get_this; mret (varMap_ c).

Definition GetFaceVector : M State (list loc) :=
  c ← get_this; mret (faceVector_ c).

Definition GetFaceMap : M State (gmap string loc) :=
  c ← get_this; mret (faceMap_ c).

Definition nl : string := String (Ascii.ascii_of_nat 10) EmptyString.

Definition GetCellVarPtr (l : string) : M State loc :=
  c ← get_this;
  match varMap_ c !! l with
  | None => PARTHENON_THROW (nl +:+ l +:+ " array not found in Get()" +:+ nl)
  | Some p => mret p
  end.

(** [CellVariable<T> &Get(const std::string &label)]: the object behind the
    pointer, by reference. *)
Definition Get (l : string) : M State loc := GetCellVarPtr l.

(** [CellVariable<T> &Get(const int index)]: [*(varVector_[index])], with no
    check of the range. *)
Definition Get_index (index : Z) : M State loc :=
  c ← get_this;
  if (index <? 0)%Z then undefined
  else match varVector_ c !! Z.to_nat index with
       | Some p => mret p
       | None => undefined
       end.

(** The bounds of [int] (32 bits), and a [size_t] converted to [int]. *)
Definition INT_MAX : Z := 2147483647.

Definition int_of_size (n : nat) : Z :=
  ((Z.of_nat n + 2147483648) mod 4294967296 - 2147483648)%Z.

(** [int Index(const std::string &label)]: the first position whose record
    has the label, or -1.  The counter is an [int]: incrementing it beyond
    [INT_MAX] has no defined behaviour. *)
Fixpoint Index_from (l : string) (i : Z) (vec : list loc) : M State Z :=
  match vec with
  | [] => mret (-1)%Z
  | p :: rest =>
      v ← deref_cell p;
      if bool_decide (label v = l) then mret i
      else if bool_decide (i = INT_MAX) then undefined
      else Index_from l (i + 1)%Z rest
  end.

Definition Index (l : string) : M State Z :=
  c ← get_this; Index_from l 0%Z (varVector_ c).

(** [FaceVariable<T> &GetFace(std::string label)] *)
Definition GetFace (l : string) : M State loc :=
  c ← get_this;
  match faceMap_ c !! l with
  | None =>
      PARTHENON_THROW (nl +:+ l +:+ " array not found in Get() Face" +:+ nl)
  | Some p => mret p
  end.

(** [EdgeVariable<T> *GetEdge(std::string label)] *)
Definition GetEdge (l : string) : M State loc :=
  PARTHENON_THROW (nl +:+ l +:+ " array not found in Get() Edge" +:+ nl).

(** Modelled from the spec: [CellVariable::Allocate] of
    interface/variable.hpp, which is not part of the sources: "transitions a
    Sparse record from Unallocated to Allocated, materializing its storage";
    on a record that is allocated it changes nothing. *)
Definition CellVariable_Allocate (pmb : weak_ptr) (v : CellVariable) :
    CellVariable :=
  if is_allocated_ v then v
  else {| label := label v; m_ := m_ v; is_allocated_ := true;
          data := data v |}.

Definition Allocate (var : loc) (pmb : weak_ptr) : M State unit :=
  _ ← deref_cell var;
  modify_world (set_cells (alter (CellVariable_Allocate pmb) var)).

Definition AllocateSparse (l : string) : M State loc :=
  has ← HasCellVariable l;
  (if negb has
   then PARTHENON_THROW ("Tried to allocate sparse variable '" +:+ l +:+
                         "', but no such sparse variable exists")
   else mret tt);;
  var ← GetCellVarPtr l;
  v ← deref_cell var;
  PARTHENON_REQUIRE_THROWS (IsSparse v)
    ("Tried to allocate non-sparse variable " +:+ l);;
  c ← get_this;
  Allocate var (pmy_block c);;
  mret var.

Definition IsAllocated (l : string) : M State bool :=
  c ← get_this;
  match varMap_ c !! l with
  | None => mret false
  | Some p => v ← deref_cell p; mret (IsAllocated_var v)
  end.

(** Modelled from the spec: [CellVariable::AllocateCopy] of
    interface/variable.hpp, which is not part of the sources: it "duplicates
    its storage into a fresh allocation bound to the same owning block"; the
    new object has the label and the metadata of the old one. *)
Definition AllocateCopy (var : loc) (pmb : weak_ptr) : M State loc :=
  v ← deref_cell var;
  w ← get_world;
  let p := fresh (dom (cells w)) in
  modify_world (set_cells (insert p v));;
  mret p.

(** [void Copy(src, names)] *)
Definition Copy_names (src : MeshBlockData) (names : list string) :
    M State unit :=
  SetBlockPointer_from src;;
  foreach names (fun name =>
    vMap ← call_on src GetCellVariableMap;
    match vMap !! name with
    | Some v =>
        r ← deref_cell v;
        if IsSet r OneCopy then Add v
        else (c ← get_this; n ← AllocateCopy v (pmy_block c); Add n)
    | None => PARTHENON_THROW ("MeshBlockData::Copy did not find " +:+ name)
    end).

(** [void Copy(src)] *)
Definition Copy (src : MeshBlockData) : M State unit :=
  SetBlockPointer_from src;;
  vs ← call_on src GetCellVariableVector;
  foreach vs (fun v =>
    r ← deref_cell v;
    if IsSet r OneCopy then Add v
    else (c ← get_this; n ← AllocateCopy v (pmy_block c); Add n));;
  fs ← call_on src GetFaceVector;
  foreach fs (fun v =>
    r ← deref_face v;
    if FaceIsSet r OneCopy then Add_face v
    else throw (runtime_error
                  "Non-oneCopy face variables are not yet supported")).

(** The keys of a [std::map] in the order of iteration. *)
Definition std_map_keys {V} (m : gmap string V) : list string :=
  merge_sort String.le (elements (dom m)).

(** [bool operator==(const MeshBlockData<T> &cmp)] *)
Definition operator_eq (self cmp : MeshBlockData) : bool :=
  let my_keys :=
    (std_map_keys (varMap_ self) ++ std_map_keys (faceMap_ self))%list in
  let cmp_keys :=
    (std_map_keys (varMap_ cmp) ++ std_map_keys (faceMap_ cmp))%list in
  bool_decide (my_keys = cmp_keys).

Definition Contains (name : string) : M State bool :=
  c ← get_this;
  if bool_decide (is_Some (varMap_ c !! name)) then mret true
  else if bool_decide (is_Some (faceMap_ c !! name)) then mret true
  else mret false.

Fixpoint Contains_all (names : list string) : M State bool :=
  match names with
  | [] => mret true
  | name :: rest =>
      b ← Contains name;
      if negb b then mret false else Contains_all rest
  end.

(** [int Size()]: [varVector_.size()] converted to [int]. *)
Definition Size : M State Z :=
  c ← get_this; mret (int_of_size (length (varVector_ c))).

(** ** The communication routines *)

(** The communication and boundary routines are declared in the header and
    defined in meshblock_data.cpp, which is not part of the sources.  The
    header fixes what each hands back to its caller. *)
Inductive CommRoutine : Type :=
  | ResetBoundaryCellVariables
  | SetupPersistentMPI
  | SetBoundaries
  | SendBoundaryBuffers
  | ReceiveAndSetBoundariesWithWait
  | ReceiveBoundaryBuffers
  | StartReceiving
  | ClearBoundary
  | SendFluxCorrection
  | ReceiveFluxCorrection
  | RestrictBoundaries
  | ProlongateBoundaries.

#[global] Instance CommRoutine_eq_dec : EqDecision CommRoutine.
Proof. solve_decision. Defined.

Inductive ResultType : Type :=
  | void
  | TaskStatus_t.

#[global] Instance ResultType_eq_dec : EqDecision ResultType.
Proof. solve_decision. Defined.

(** Modelled from the spec: [TaskStatus] of basic_types.hpp, which is not
    part of the sources, is the "tri-state result: Complete, Incomplete —
    retry later, or Fatal-error". *)
Inductive TaskStatus : Type :=
  | complete
  | incomplete
  | fail.

(** The result type of each declaration. *)
Definition declared_result (r : CommRoutine) : ResultType :=
  match r with
  | ResetBoundaryCellVariables => void
  | SetupPersistentMPI => void
  | SetBoundaries => TaskStatus_t
  | SendBoundaryBuffers => TaskStatus_t
  | ReceiveAndSetBoundariesWithWait => TaskStatus_t
  | ReceiveBoundaryBuffers => TaskStatus_t
  | StartReceiving => TaskStatus_t
  | ClearBoundary => TaskStatus_t
  | SendFluxCorrection => TaskStatus_t
  | ReceiveFluxCorrection => TaskStatus_t
  | RestrictBoundaries => void
  | ProlongateBoundaries => void
  end.

(** The values a routine can hand back. *)
Definition result (t : ResultType) : Type :=
  match t with
  | void => unit
  | TaskStatus_t => TaskStatus
  end.

(** ** The pack overloads *)

(** [PackVariablesAndFluxes] has eight declarations in the header and
    [PackVariables] six.  Six of the fourteen are only declared (they are
    defined in meshblock_data.cpp, which is not part of the sources) and are
    taken as given, acting on a state [Σ] (the container with its pack
    caches, and the world).  The other eight are defined in the header, each
    by one call of the overloaded name.  Which declaration such a call
    reaches is decided by overload resolution, modelled here as far as the
    calls of the header need it: the number of arguments against the
    parameters and their default arguments, the implicit conversions
    between the types that occur, and the comparison of the conversion
    sequences of the viable candidates. *)

(** A pointer to an out parameter; [None] is the null pointer. *)
Definition out_ptr : Type := option loc.

(** The parameter types of the fourteen declarations: vectors are passed by
    const reference, the rest by value. *)
Inductive ParamType : Type :=
  | vector_string | vector_MetadataFlag | vector_int | bool_t
  | PackIndexMap_ptr | StringPair_ptr | vector_string_ptr.

#[global] Instance ParamType_eq_dec : EqDecision ParamType.
Proof. solve_decision. Defined.

(** The arguments of a call: a value of one of these types, or the braces
    [{}]. *)
Inductive Value : Type :=
  | names_v (l : list string)
  | flags_v (l : list MetadataFlag)
  | ids_v (l : list Z)
  | bool_v (b : bool)
  | vmap_v (p : out_ptr)
  | keys_v (p : out_ptr)
  | key_v (p : out_ptr)
  | braces.

Definition type_of (a : Value) : option ParamType :=
  match a with
  | names_v _ => Some vector_string
  | flags_v _ => Some vector_MetadataFlag
  | ids_v _ => Some vector_int
  | bool_v _ => Some bool_t
  | vmap_v _ => Some PackIndexMap_ptr
  | keys_v _ => Some StringPair_ptr
  | key_v _ => Some vector_string_ptr
  | braces => None
  end.

(** The declarations, named by the header line that carries the name. *)
Inductive Declaration : Type :=
  | flux_280 | flux_287 | flux_295 | flux_302
  | flux_309 | flux_315 | flux_322 | flux_327
  | pack_333 | pack_337 | pack_344 | pack_348 | pack_355 | pack_358.

#[global] Instance Declaration_eq_dec : EqDecision Declaration.
Proof. solve_decision. Defined.

Definition params (d : Declaration) : list ParamType :=
  match d with
  | flux_280 => [vector_string; vector_string; vector_int;
                 PackIndexMap_ptr; StringPair_ptr]
  | flux_287 => [vector_string; vector_string; PackIndexMap_ptr; StringPair_ptr]
  | flux_295 => [vector_string; vector_int; PackIndexMap_ptr; StringPair_ptr]
  | flux_302 => [vector_string; PackIndexMap_ptr; StringPair_ptr]
  | flux_309 => [vector_MetadataFlag; vector_int;
                 PackIndexMap_ptr; StringPair_ptr]
  | flux_315 => [vector_MetadataFlag; PackIndexMap_ptr; StringPair_ptr]
  | flux_322 => [vector_int; PackIndexMap_ptr; StringPair_ptr]
  | flux_327 => [PackIndexMap_ptr; StringPair_ptr]
  | pack_333 => [vector_string; vector_int; bool_t;
                 PackIndexMap_ptr; vector_string_ptr]
  | pack_337 => [vector_string; bool_t; PackIndexMap_ptr; vector_string_ptr]
  | pack_344 => [vector_MetadataFlag; vector_int; bool_t;
                 PackIndexMap_ptr; vector_string_ptr]
  | pack_348 => [vector_MetadataFlag; bool_t;
                 PackIndexMap_ptr; vector_string_ptr]
  | pack_355 => [vector_int; bool_t; PackIndexMap_ptr; vector_string_ptr]
  | pack_358 => [bool_t; PackIndexMap_ptr; vector_string_ptr]
  end.

(** The number of leading parameters without a default argument. *)
Definition required (d : Declaration) : nat :=
  match d with
  | flux_280 | flux_287 => 2
  | flux_295 | flux_302 | flux_309 | flux_315 | flux_322 => 1
  | flux_327 => 0
  | pack_333 | pack_337 | pack_344 | pack_348 | pack_355 => 1
  | pack_358 => 0
  end.

(** The default arguments of the header: [{}] for [sparse_ids], [false] for
    [coarse], [nullptr] for the out parameters. *)
Definition default_argument (t : ParamType) : Value :=
  match t with
  | vector_string => names_v []
  | vector_MetadataFlag => flags_v []
  | vector_int => ids_v []
  | bool_t => bool_v false
  | PackIndexMap_ptr => vmap_v None
  | StringPair_ptr => keys_v None
  | vector_string_ptr => key_v None
  end.

Definition flux_overloads : list Declaration :=
  [flux_280; flux_287; flux_295; flux_302;
   flux_309; flux_315; flux_322; flux_327].

Definition pack_overloads : list Declaration :=
  [pack_333; pack_337; pack_344; pack_348; pack_355; pack_358].

(** *** Overload resolution *)

(** The implicit conversion sequence from an argument to a parameter type,
    if there is one.  An argument of the parameter's type needs no
    conversion; a pointer converts to [bool]; [{}] initialises a vector
    through its default constructor, a user-defined conversion, and a
    [bool] or a pointer with no conversion.  There is no other conversion
    between these types. *)
Inductive Rank : Type :=
  | identity_conversion | standard_conversion | user_defined_conversion.

Definition is_pointer (t : ParamType) : bool :=
  match t with
  | PackIndexMap_ptr | StringPair_ptr | vector_string_ptr => true
  | _ => false
  end.

Definition implicit_conversion (a : Value) (t : ParamType) : option Rank :=
  match type_of a with
  | None =>
      match t with
      | vector_string | vector_MetadataFlag | vector_int =>
          Some user_defined_conversion
      | _ => Some identity_conversion
      end
  | Some s =>
      if bool_decide (s = t) then Some identity_conversion
      else if is_pointer s && bool_decide (t = bool_t)
           then Some standard_conversion
           else None
  end.

Fixpoint conversion_sequences (args : list Value) (ps : list ParamType) :
    option (list Rank) :=
  match args, ps with
  | [], _ => Some []
  | a :: args, t :: ps =>
      r ← implicit_conversion a t;
      rs ← conversion_sequences args ps;
      Some (r :: rs)
  | _ :: _, [] => None
  end.

(** A declaration is viable for a call when the arguments are neither too
    few nor too many and each converts to its parameter. *)
Definition viable (args : list Value) (d : Declaration) :
    option (Declaration * list Rank) :=
  if (required d <=? length args)%nat
  then rs ← conversion_sequences args (params d); Some (d, rs)
  else None.

(** A standard conversion sequence is better than a user-defined one, an
    identity better than a conversion; two user-defined conversions through
    different constructors are indistinguishable. *)
Definition rank_index (r : Rank) : nat :=
  match r with
  | identity_conversion => 0
  | standard_conversion => 1
  | user_defined_conversion => 2
  end.

(** [better f g]: no argument converts worse for [f] than for [g], and some
    argument converts better. *)
Definition better (f g : list Rank) : bool :=
  forallb (fun '(a, b) => (rank_index a <=? rank_index b)%nat) (zip f g) &&
  existsb (fun '(a, b) => (rank_index a <? rank_index b)%nat) (zip f g).

Inductive Resolution : Type :=
  | selected (d : Declaration)
  | ambiguous (candidates : list Declaration)
  | no_match.

(** The call is well formed when one viable candidate is better than every
    other one. *)
Definition resolve (overloads : list Declaration) (args : list Value) :
    Resolution :=
  let candidates := omap (viable args) overloads in
  match List.filter
          (fun f => forallb (fun g => bool_decide (f.1 = g.1) || better f.2 g.2)
                            candidates)
          candidates with
  | [f] => selected f.1
  | _ => match candidates with
         | [] => no_match
         | _ => ambiguous (fst <$> candidates)
         end
  end.

(** An argument converted to the type of its parameter, and the parameters
    of a call: the converted arguments, then the default arguments. *)
Definition convert (t : ParamType) (a : Value) : Value :=
  match a, t with
  | braces, _ => default_argument t
  | (vmap_v p | keys_v p | key_v p), bool_t => bool_v (bool_decide (is_Some p))
  | _, _ => a
  end.

Fixpoint bind_parameters (ps : list ParamType) (args : list Value) :
    list Value :=
  match ps, args with
  | [], _ => []
  | t :: ps, a :: args => convert t a :: bind_parameters ps args
  | t :: ps, [] => default_argument t :: bind_parameters ps []
  end.

(** *** The declarations and the bodies *)

(** What a declaration called with given parameters is: a computation, or
    nothing, because a call in its body is ill formed.  [stuck] is the
    result when the fuel is used up (the longest chain of calls has four
    links) or the parameters are not of the declared types (which
    [bind_parameters] excludes). *)
Inductive Outcome (Σ R : Type) : Type :=
  | runs (m : M Σ R)
  | ill_formed (r : Resolution)
  | stuck.

Arguments runs {Σ R} m.

Arguments ill_formed {Σ R} r.

Arguments stuck {Σ R}.

Section PackOverloads.
Context {Σ VariableFluxPack VariablePack : Type}.

(** [PackVariablesAndFluxes(var_names, flx_names, sparse_ids, vmap_out,
    keys_out)], declared at line 280 *)
Variable PackVariablesAndFluxes_names_fluxes_ids :
  list string -> list string -> list Z -> out_ptr -> out_ptr ->
  M Σ VariableFluxPack.
(** [PackVariablesAndFluxes(flags, sparse_ids, vmap_out, keys_out)], line 309 *)
Variable PackVariablesAndFluxes_flags_ids :
  list MetadataFlag -> list Z -> out_ptr -> out_ptr -> M Σ VariableFluxPack.
(** [PackVariablesAndFluxes(sparse_ids, vmap_out, keys_out)], line 322 *)
Variable PackVariablesAndFluxes_ids :
  list Z -> out_ptr -> out_ptr -> M Σ VariableFluxPack.
(** [PackVariables(names, sparse_ids, coarse, vmap_out, key_out)], line 333 *)
Variable PackVariables_names_ids :
  list string -> list Z -> bool -> out_ptr -> out_ptr -> M Σ VariablePack.
(** [PackVariables(flags, sparse_ids, coarse, vmap_out, key_out)], line 344 *)
Variable PackVariables_flags_ids :
  list MetadataFlag -> list Z -> bool -> out_ptr -> out_ptr ->
  M Σ VariablePack.
(** [PackVariables(sparse_ids, coarse, vmap_out, key_out)], line 355 *)
Variable PackVariables_ids :
  list Z -> bool -> out_ptr -> out_ptr -> M Σ VariablePack.

Fixpoint PackVariablesAndFluxes (fuel : nat) (d : Declaration)
    (ps : list Value) : Outcome Σ VariableFluxPack :=
  match fuel with
  | 0 => stuck
  | S fuel =>
      let call args :=
        match resolve flux_overloads args with
        | selected d' =>
            PackVariablesAndFluxes fuel d' (bind_parameters (params d') args)
        | r => ill_formed r
        end in
      match d, ps with
      | flux_280, [names_v var_names; names_v flx_names; ids_v sparse_ids;
                   vmap_v vmap_out; keys_v keys_out] =>
          runs (PackVariablesAndFluxes_names_fluxes_ids var_names flx_names
                  sparse_ids vmap_out keys_out)
      | flux_287, [var_names; flx_names; vmap_out; keys_out] =>
          call [var_names; flx_names; braces; vmap_out; keys_out]
      | flux_295, [names; sparse_ids; vmap_out; keys_out] =>
          call [names; names; sparse_ids; vmap_out; keys_out]
      | flux_302, [names; vmap_out; keys_out] =>
          call [names; braces; vmap_out; keys_out]
      | flux_309, [flags_v flags; ids_v sparse_ids;
                   vmap_v vmap_out; keys_v keys_out] =>
          runs (PackVariablesAndFluxes_flags_ids flags sparse_ids
                  vmap_out keys_out)
      | flux_315, [flags; vmap_out; keys_out] =>
          call [flags; braces; vmap_out; keys_out]
      | flux_322, [ids_v sparse_ids; vmap_v vmap_out; keys_v keys_out] =>
          runs (PackVariablesAndFluxes_ids sparse_ids vmap_out keys_out)
      | flux_327, [vmap_out; keys_out] =>
          call [braces; vmap_out; keys_out]
      | _, _ => stuck
      end
  end.

Fixpoint PackVariables (fuel : nat) (d : Declaration) (ps : list Value) :
    Outcome Σ VariablePack :=
  match fuel with
  | 0 => stuck
  | S fuel =>
      let call args :=
        match resolve pack_overloads args with
        | selected d' =>
            PackVariables fuel d' (bind_parameters (params d') args)
        | r => ill_formed r
        end in
      match d, ps with
      | pack_333, [names_v names; ids_v sparse_ids; bool_v coarse;
                   vmap_v vmap_out; key_v key_out] =>
          runs (PackVariables_names_ids names sparse_ids coarse
                  vmap_out key_out)
      | pack_337, [names; coarse; vmap_out; key_out] =>
          call [names; braces; coarse; vmap_out; key_out]
      | pack_344, [flags_v flags; ids_v sparse_ids; bool_v coarse;
                   vmap_v vmap_out; key_v key_out] =>
          runs (PackVariables_flags_ids flags sparse_ids coarse
                  vmap_out key_out)
      | pack_348, [flags; coarse; vmap_out; key_out] =>
          call [flags; braces; coarse; vmap_out; key_out]
      | pack_355, [ids_v sparse_ids; bool_v coarse;
                   vmap_v vmap_out; key_v key_out] =>
          runs (PackVariables_ids sparse_ids coarse vmap_out key_out)
      | pack_358, [coarse; vmap_out; key_out] =>
          call [braces; coarse; vmap_out; key_out]
      | _, _ => stuck
      end
  end.

End PackOverloads.

(** ** utils.hpp: reading the environment *)

(** [Env::get<T>(name, DefaultVal, exists)].  The environment is the map
    behind [std::getenv].  [exists] is a parameter passed by value: the
    function assigns to its own copy, which nobody reads.  Which conversion
    applies is fixed by the type [T]: the pointer itself when [T] is
    [char*], and what [std::istringstream(value) >> res] extracts
    otherwise; both are taken as given. *)
Section Env.
Context {T : Type}.
Variable is_char_ptr : bool.
Variable cast : string -> T.
Variable extract : string -> T.

Definition Env_get (env : gmap string string) (name : string)
    (DefaultVal : T) (exists_ : bool) : T :=
  let exists_ := true in
  match env !! name with
  | None => let exists_ := false in DefaultVal
  | Some value =>
      if bool_decide (value = "") then DefaultVal
      else if is_char_ptr then cast value else extract value
  end.

End Env.

(** * The vocabulary of the properties

    The predicates, the relations and the sample states that the statements
    below are written with. *)

(** ** Predicates and relations *)

(** The block's last owner lets go of it. *)
Definition release_block (b : loc) (w : World) : World :=
  set_blocks (delete b) w.

(** The set of labels of a container: dense and face together. *)
Definition label_set (c : MeshBlockData) : gset string :=
  dom (varMap_ c) ∪ dom (faceMap_ c).

(** [preserves I m]: from a state in [I], [m] ends (by return or by throw)
    in a state in [I]. *)
Definition preserves {A} (I : State -> Prop) (m : M State A) : Prop :=
  forall st, I st ->
    match m st with
    | Returns _ st' => I st'
    | Throws _ st' => I st'
    | Undefined => True
    end.

(** [pure_query m]: [m] ends in the state it started from. *)
Definition pure_query {A} (m : M State A) : Prop :=
  forall st,
    match m st with
    | Returns _ st' => st' = st
    | Throws _ st' => st' = st
    | Undefined => True
    end.

Definition label_at (w : World) (p : loc) : option string :=
  label <$> cells w !! p.

Definition flabel_at (w : World) (p : loc) : option string :=
  flabel <$> faces w !! p.

(** The consistency of the invariant of the data model: no record is twice
    in the sequence, every record of the sequence is in the map under its
    label, and every entry of the map is a record of the sequence under the
    record's label. *)
Definition consistent (lab : loc -> option string) (vec : list loc)
    (m : gmap string loc) : Prop :=
  NoDup vec /\
  (forall p, p ∈ vec -> exists l, lab p = Some l /\ m !! l = Some p) /\
  (forall l p, m !! l = Some p -> p ∈ vec /\ lab p = Some l).

(** What holds whether or not labels repeat: the labels of the sequence are
    the keys of the map, and every entry of the map is a record of the
    sequence under the record's label. *)
Definition registry_inv (lab : loc -> option string) (vec : list loc)
    (m : gmap string loc) : Prop :=
  (forall p, p ∈ vec -> exists l, lab p = Some l /\ is_Some (m !! l)) /\
  (forall l p, m !! l = Some p -> p ∈ vec /\ lab p = Some l).

Definition state_consistent (st : State) : Prop :=
  consistent (label_at (world st)) (varVector_ (this st)) (varMap_ (this st)) /\
  consistent (flabel_at (world st)) (faceVector_ (this st))
    (faceMap_ (this st)).

Definition state_inv (st : State) : Prop :=
  registry_inv (label_at (world st)) (varVector_ (this st))
    (varMap_ (this st)) /\
  registry_inv (flabel_at (world st)) (faceVector_ (this st))
    (faceMap_ (this st)).

(** The operations of the header that change a container or the world,
    as requests to one container. *)
Inductive Op : Type :=
  | OpAdd (var : loc)
  | OpAdd_face (var : loc)
  | OpCopy (src : MeshBlockData)
  | OpCopy_names (src : MeshBlockData) (names : list string)
  | OpAllocateSparse (l : string)
  | OpSetBlockPointer (pmb : weak_ptr)
  | OpSetBlockPointer_from (other : MeshBlockData)
  | OpSetAllowedDt (dt : Real).

Definition exec (op : Op) : M State unit :=
  match op with
  | OpAdd var => Add var
  | OpAdd_face var => Add_face var
  | OpCopy src => Copy src
  | OpCopy_names src names => Copy_names src names
  | OpAllocateSparse l => _ ← AllocateSparse l; mret tt
  | OpSetBlockPointer pmb => SetBlockPointer pmb
  | OpSetBlockPointer_from other => SetBlockPointer_from other
  | OpSetAllowedDt dt => SetAllowedDt dt
  end.

(** The state a call leaves behind, on return and on throw alike (the
    caller may catch the exception and go on using the container). *)
Definition after {A} (o : outcome State A) : option State :=
  match o with
  | Returns _ st => Some st
  | Throws _ st => Some st
  | Undefined => None
  end.

(** A container starts out default-constructed, in any world, and is then
    operated on. *)
Inductive reachable : State -> Prop :=
  | reachable_default (w : World) :
      reachable {| this := MeshBlockData_default; world := w |}
  | reachable_step (st st' : State) (op : Op) :
      reachable st -> after (exec op st) = Some st' -> reachable st'.

(** The world only changes by records that keep their label. *)
Definition labels_le (w w' : World) : Prop :=
  (forall p l, label_at w p = Some l -> label_at w' p = Some l) /\
  (forall p l, flabel_at w p = Some l -> flabel_at w' p = Some l).

(** [n = v->AllocateCopy(pmy_block); Add(n)] on a live record. *)
Definition copy_then_add (v : loc) : M State unit :=
  c ← get_this; n ← AllocateCopy v (pmy_block c); Add n.

(** [op_ok ok op]: the records that [op] takes over from a source, or is
    handed, are among those that [ok] admits. *)
Definition op_ok (ok : loc -> Prop) (op : Op) : Prop :=
  match op with
  | OpAdd var => ok var
  | OpCopy src => forall v, v ∈ varVector_ src -> ok v
  | OpCopy_names src names =>
      forall n v, n ∈ names -> varMap_ src !! n = Some v -> ok v
  | _ => True
  end.

(** The map that the sequence determines: the records inserted in order,
    each under its label, a later record replacing an earlier one of the
    same label. *)
Definition bind_label (lab : loc -> option string) (m : gmap string loc)
    (p : loc) : gmap string loc :=
  match lab p with Some l => <[l := p]> m | None => m end.

Definition map_of (lab : loc -> option string) (vec : list loc) :
    gmap string loc :=
  foldl (bind_label lab) ∅ vec.

Definition folded (lab : loc -> option string) (vec : list loc)
    (m : gmap string loc) : Prop :=
  Forall (fun p => is_Some (lab p)) vec /\ m = map_of lab vec.

Definition state_folded (st : State) : Prop :=
  folded (label_at (world st)) (varVector_ (this st)) (varMap_ (this st)) /\
  folded (flabel_at (world st)) (faceVector_ (this st)) (faceMap_ (this st)).




(** The dense map has an entry for [L]. *)
Definition has (L : string) (st : State) : Prop :=
  is_Some (varMap_ (this st) !! L).



(** The body of the two loops over dense records. *)
Definition share_or_copy (v : loc) : M State unit :=
  r ← deref_cell v;
  if IsSet r OneCopy then Add v
  else (c ← get_this; n ← AllocateCopy v (pmy_block c); Add n).

(** How record [p] of the derived container comes from record [v] of the
    source: it is [v] itself when [v] is OneCopy, and otherwise an object
    that did not exist before and now holds a duplicate of [v]. *)
Definition taken_over (w w' : World) (v p : loc) : Prop :=
  exists r, cells w !! v = Some r /\
    if IsSet r OneCopy then p = v
    else cells w !! p = None /\ cells w' !! p = Some r.

(** The body of the loop over face records. *)
Definition share_face (v : loc) : M State unit :=
  r ← deref_face v;
  if FaceIsSet r OneCopy then Add_face v
  else throw (runtime_error
                "Non-oneCopy face variables are not yet supported").

(** The body of the loop over names. *)
Definition copy_name (src : MeshBlockData) (name : string) : M State unit :=
  vMap ← call_on src GetCellVariableMap;
  match vMap !! name with
  | Some v => share_or_copy v
  | None => PARTHENON_THROW ("MeshBlockData::Copy did not find " +:+ name)
  end.

(** *** Writing and reading through a container

    What a caller does with the reference returned by an accessor
    ([Get(label)], [Get(index)]): it writes the buffer of the record, or
    reads it. *)
Definition set_data (d : list Real) (v : CellVariable) : CellVariable :=
  {| label := label v; m_ := m_ v; is_allocated_ := is_allocated_ v;
     data := d |}.

Definition write_via (acc : M State loc) (d : list Real) : M State unit :=
  p ← acc;
  v ← deref_cell p;
  modify_world (set_cells (insert p (set_data d v))).

Definition read_via (acc : M State loc) : M State (list Real) :=
  p ← acc;
  v ← deref_cell p;
  mret (data v).

(** Write [d] through container [A], then read through container [B]. *)
Definition write_then_read (A : MeshBlockData) (accA : M State loc)
    (d : list Real) (B : MeshBlockData) (accB : M State loc) (w : World) :
    option (list Real) :=
  match (call_on A (write_via accA d);; call_on B (read_via accB))
          {| this := A; world := w |} with
  | Returns x _ => Some x
  | _ => None
  end.

(** A write through either container is read through the other. *)
Definition aliased (A : MeshBlockData) (accA : M State loc)
    (B : MeshBlockData) (accB : M State loc) (w : World) : Prop :=
  forall d, write_then_read A accA d B accB w = Some d /\
            write_then_read B accB d A accA w = Some d.

(** Whatever is written through one container, the other reads its own
    buffer, [dA] through [A] and [dB] through [B]. *)
Definition independent (A : MeshBlockData) (accA : M State loc)
    (B : MeshBlockData) (accB : M State loc) (w : World)
    (dA dB : list Real) : Prop :=
  forall d, write_then_read A accA d B accB w = Some dB /\
            write_then_read B accB d A accA w = Some dA.

(** [acc] called on [c] yields the address [p], in any world. *)
Definition yields (c : MeshBlockData) (acc : M State loc) (p : loc) : Prop :=
  forall w, acc {| this := c; world := w |} =
            Returns p {| this := c; world := w |}.

(** The pointers a container holds point to objects of the world. *)
Definition pointers_valid (w : World) (c : MeshBlockData) : Prop :=
  Forall (fun v => is_Some (cells w !! v)) (varVector_ c) /\
  map_Forall (fun _ v => is_Some (cells w !! v)) (varMap_ c) /\
  Forall (fun f => is_Some (faces w !! f)) (faceVector_ c).

(** What the derived container [c'] holds at position [j] for the record
    [v] that the source reaches by [accS]. *)
Definition derived_entry (w w' : World) (src : MeshBlockData)
    (accS : M State loc) (c' : MeshBlockData) (j : nat) (v : loc) : Prop :=
  exists r p,
    cells w !! v = Some r /\ varVector_ c' !! j = Some p /\
    if IsSet r OneCopy
    then p = v /\
         aliased src accS c' (Get_index (Z.of_nat j)) w'
    else p <> v /\ cells w !! p = None /\
         cells w' !! p = Some r /\ cells w' !! v = Some r /\
         independent src accS c' (Get_index (Z.of_nat j)) w'
           (data r) (data r).

(** What a value of a result type can be. *)
Definition possible_result (t : ResultType) : result t -> Prop :=
  match t with
  | void => fun x => x = tt
  | TaskStatus_t => fun x => x = complete \/ x = incomplete \/ x = fail
  end.

(** The routines that report a status, and those that report nothing. *)
Definition status_routines : list CommRoutine :=
  [SetBoundaries; SendBoundaryBuffers; ReceiveAndSetBoundariesWithWait;
   ReceiveBoundaryBuffers; StartReceiving; ClearBoundary;
   SendFluxCorrection; ReceiveFluxCorrection].

Definition void_routines : list CommRoutine :=
  [ResetBoundaryCellVariables; SetupPersistentMPI;
   RestrictBoundaries; ProlongateBoundaries].

(** [p] is the first record of [vec] with label [l], at position [i]. *)
Definition first_labelled (lab : loc -> option string) (vec : list loc)
    (l : string) (i : nat) (p : loc) : Prop :=
  vec !! i = Some p /\ lab p = Some l /\
  forall j q, j < i -> vec !! j = Some q -> lab q <> Some l.

(** [p] is the last record of [vec] with label [l]. *)
Definition last_labelled (lab : loc -> option string) (vec : list loc)
    (l : string) (p : loc) : Prop :=
  exists pre post,
    vec = (pre ++ p :: post)%list /\ lab p = Some l /\
    Forall (fun q => lab q <> Some l) post.

(** The value a computation returns, if it returns. *)
Definition returned {A} (o : outcome State A) : option A :=
  match o with
  | Returns a _ => Some a
  | _ => None
  end.

(** ** Sample states *)

Definition block0 : MeshBlock :=
  {| cellbounds :=
       {| IndexShape_GetBoundsI := fun _ => mkIndexRange 0 7;
          IndexShape_GetBoundsJ := fun _ => mkIndexRange 0 7;
          IndexShape_GetBoundsK := fun _ => mkIndexRange 0 0 |};
     new_block_dt_ := 0%Z |}.

(** Two records with one label. *)
Definition rho_a : CellVariable :=
  {| label := "rho"; m_ := mkMetadata [OneCopy]; is_allocated_ := true;
     data := [1%Z; 2%Z] |}.

Definition rho_b : CellVariable :=
  {| label := "rho"; m_ := mkMetadata []; is_allocated_ := true;
     data := [7%Z; 7%Z] |}.

Definition two_rho : World :=
  {| cells := {[ 1%positive := rho_a; 2%positive := rho_b ]};
     faces := ∅; blocks := ∅ |}.

Definition holds_rho_a : MeshBlockData :=
  {| pmy_block := None; varVector_ := [1%positive]; faceVector_ := [];
     varMap_ := {[ "rho" := 1%positive ]}; faceMap_ := ∅ |}.






Definition dense_a_face_b : MeshBlockData :=
  {| pmy_block := None; varVector_ := [1%positive]; faceVector_ := [1%positive];
     varMap_ := {[ "a" := 1%positive ]}; faceMap_ := {[ "b" := 1%positive ]} |}.

Definition dense_b_face_a : MeshBlockData :=
  {| pmy_block := None; varVector_ := [2%positive]; faceVector_ := [2%positive];
     varMap_ := {[ "b" := 2%positive ]}; faceMap_ := {[ "a" := 2%positive ]} |}.

Definition same_names_other_records : MeshBlockData :=
  {| pmy_block := None; varVector_ := [2%positive]; faceVector_ := [];
     varMap_ := {[ "rho" := 2%positive ]}; faceMap_ := ∅ |}.

(** The container reached by adding the two records labelled "rho". *)
Definition holds_two_rho : MeshBlockData :=
  {| pmy_block := None; varVector_ := [1%positive; 2%positive];
     faceVector_ := [];
     varMap_ := {[ "rho" := 2%positive ]}; faceMap_ := ∅ |}.

Definition pressure : CellVariable :=
  {| label := "p"; m_ := mkMetadata []; is_allocated_ := true; data := [] |}.

Definition rho_and_p : World :=
  {| cells := {[ 1%positive := rho_a; 2%positive := pressure ]};
     faces := ∅; blocks := ∅ |}.

(** A source with a OneCopy record, a record that is not OneCopy and a
    OneCopy face record, on a live block. *)
Definition face_B : FaceVariable :=
  {| flabel := "B"; fm_ := mkMetadata [OneCopy]; fdata := ([], [], []) |}.

Definition stage_world : World :=
  {| cells := {[ 1%positive := rho_a; 2%positive := pressure ]};
     faces := {[ 1%positive := face_B ]};
     blocks := {[ 5%positive := block0 ]} |}.

Definition base_stage : MeshBlockData :=
  {| pmy_block := Some 5%positive;
     varVector_ := [1%positive; 2%positive];
     faceVector_ := [1%positive];
     varMap_ := {[ "rho" := 1%positive; "p" := 2%positive ]};
     faceMap_ := {[ "B" := 1%positive ]} |}.

(** A source whose face record is not OneCopy. *)
Definition face_E : FaceVariable :=
  {| flabel := "E"; fm_ := mkMetadata []; fdata := ([], [], []) |}.

Definition plain_face_world : World :=
  {| cells := {[ 1%positive := rho_a; 2%positive := pressure ]};
     faces := {[ 1%positive := face_E ]};
     blocks := {[ 5%positive := block0 ]} |}.

Definition plain_face_stage : MeshBlockData :=
  {| pmy_block := Some 5%positive;
     varVector_ := [1%positive; 2%positive];
     faceVector_ := [1%positive];
     varMap_ := {[ "rho" := 1%positive; "p" := 2%positive ]};
     faceMap_ := {[ "E" := 1%positive ]} |}.







(** * Properties *)

(** ** Reasoning about computations *)

Ltac munfold :=
  unfold PARTHENON_THROW, PARTHENON_REQUIRE_THROWS,
    mbind, M_bind, mret, M_ret, bind, ret, throw, undefined,
    get_state, put_state, get_this, get_world, modify_this, modify_world,
    deref_cell, deref_face, deref_block, call_on.

Lemma bind_Returns {S A B} (m : M S A) (k : A -> M S B) st a st' :
  m st = Returns a st' -> (m ≫= k) st = k a st'.
Proof. intros H. munfold. by rewrite H. Qed.

Lemma bind_Throws {S A B} (m : M S A) (k : A -> M S B) st ex st' :
  m st = Throws ex st' -> (m ≫= k) st = Throws ex st'.
Proof. intros H. munfold. by rewrite H. Qed.

Lemma bind_Undefined {S A B} (m : M S A) (k : A -> M S B) st :
  m st = Undefined -> (m ≫= k) st = Undefined.
Proof. intros H. munfold. by rewrite H. Qed.

Lemma State_eta st : {| this := this st; world := world st |} = st.
Proof. by destruct st. Qed.

Lemma expired_lock_None w p : expired w p = true -> lock w p = None.
Proof. unfold lock. by intros ->. Qed.

Lemma live_lock w p :
  expired w p = false -> exists b, p = Some b /\ lock w p = Some b.
Proof.
  unfold lock. intros H. rewrite H. destruct p as [b|]; [eauto | done].
Qed.

Lemma GetBlockPointer_expired st :
  expired (world st) (pmy_block (this st)) = true ->
  GetBlockPointer st =
    Throws (runtime_error "Invalid pointer to MeshBlock!") st.
Proof. intros H. unfold GetBlockPointer. munfold. by rewrite H. Qed.

Lemma GetBlockPointer_live st :
  expired (world st) (pmy_block (this st)) = false ->
  exists b, pmy_block (this st) = Some b /\ is_Some (blocks (world st) !! b) /\
            GetBlockPointer st = Returns b st.
Proof.
  intros H. destruct (live_lock _ _ H) as (b & Hb & Hl).
  exists b. split; [done|]. split.
  - rewrite Hb in H. simpl in H. apply bool_decide_eq_false in H.
    by apply not_eq_None_Some.
  - unfold GetBlockPointer. munfold. by rewrite H, Hl.
Qed.

(** ** The weak back-reference to the mesh block *)

(** C9.  The container observes its block through a weak reference: when the
    block is released the reference held by the container is expired,
    whatever the container; and with an expired reference each of
    GetBlockPointer, GetParentPointer, SetAllowedDt, GetBoundsI, GetBoundsJ
    and GetBoundsK throws "Invalid pointer to MeshBlock!" and leaves
    container and world as they were: the block is not dereferenced (the
    outcome is a throw, not an undefined access). *)
Theorem stale_block_reference (c : MeshBlockData) (w : World) :
  (forall b, pmy_block c = Some b ->
     expired (release_block b w) (pmy_block c) = true) /\
  (expired w (pmy_block c) = true ->
   let st := {| this := c; world := w |} in
   let stale := runtime_error "Invalid pointer to MeshBlock!" in
   GetBlockPointer st = Throws stale st /\
   GetParentPointer st = Throws stale st /\
   (forall dt, SetAllowedDt dt st = Throws stale st) /\
   (forall d, GetBoundsI d st = Throws stale st) /\
   (forall d, GetBoundsJ d st = Throws stale st) /\
   (forall d, GetBoundsK d st = Throws stale st)).
Proof.
  split.
  - intros b ->. simpl. apply bool_decide_eq_true. apply lookup_delete_eq.
  - intros H st stale.
    assert (Hg : GetBlockPointer st = Throws stale st)
      by (by apply GetBlockPointer_expired).
    repeat split; try done; intros;
      unfold SetAllowedDt, GetBoundsI, GetBoundsJ, GetBoundsK;
      by apply bind_Throws.
Qed.

Lemma stale_block_reference_witness :
  let c := set_pmy_block (Some 5%positive) MeshBlockData_default in
  let w := release_block 5%positive
             {| cells := ∅; faces := ∅;
                blocks := {[ 5%positive := block0 ]} |} in
  expired w (pmy_block c) = true /\
  GetBoundsI interior {| this := c; world := w |} =
    Throws (runtime_error "Invalid pointer to MeshBlock!")
           {| this := c; world := w |}.
Proof.
  intros c w.
  assert (H : expired w (pmy_block c) = true) by (vm_compute; reflexivity).
  split; [exact H|].
  exact (proj1 (proj2 (proj2 (proj2 (proj2 (stale_block_reference c w) H))))
           interior).
Defined.

(** ** Adding records *)

Lemma Add_Returns c w var v :
  cells w !! var = Some v ->
  Add var {| this := c; world := w |} =
    Returns tt {| this := assign_varMap (label v) var (push_var var c);
                  world := w |}.
Proof. intros H. unfold Add. munfold. simpl. by rewrite H. Qed.

Lemma Add_dangling c w var :
  cells w !! var = None -> Add var {| this := c; world := w |} = Undefined.
Proof. intros H. unfold Add. munfold. simpl. by rewrite H. Qed.

Lemma Add_face_Returns c w var v :
  faces w !! var = Some v ->
  Add_face var {| this := c; world := w |} =
    Returns tt {| this := assign_faceMap (flabel v) var (push_face var c);
                  world := w |}.
Proof. intros H. unfold Add_face. munfold. simpl. by rewrite H. Qed.

Lemma Add_face_dangling c w var :
  faces w !! var = None ->
  Add_face var {| this := c; world := w |} = Undefined.
Proof. intros H. unfold Add_face. munfold. simpl. by rewrite H. Qed.

(** C3, as claimed, fails: a container holds "rho"; adding another record
    labelled "rho" returns normally, the sequence has grown and the map
    entry is overwritten. *)
Lemma Add_duplicate_label_counterexample :
  let st := {| this := holds_rho_a; world := two_rho |} in
  HasCellVariable "rho" st = Returns true st /\
  cells two_rho !! 2%positive = Some rho_b /\ label rho_b = "rho" /\
  exists c',
    Add 2%positive st = Returns tt {| this := c'; world := two_rho |} /\
    varVector_ c' = [1%positive; 2%positive] /\
    varMap_ c' !! "rho" = Some 2%positive /\
    c' <> holds_rho_a.
Proof.
  intros st. split; [reflexivity|]. split; [reflexivity|].
  split; [reflexivity|].
  eexists. split.
  - unfold st. apply (Add_Returns _ _ _ rho_b). reflexivity.
  - split; [reflexivity|]. split; [reflexivity|].
    intros Heq. apply (f_equal varVector_) in Heq. discriminate Heq.
Qed.

(** C3, amended.  Adding a record never fails, also when its label is
    already present among the dense variables: no exception is thrown, the
    record is appended to the ordered sequence, and the entry of the name
    map for its label is (over)written with the new record.  Nothing else
    changes. *)
Theorem Add_appends_and_overwrites (c : MeshBlockData) (w : World)
    (var : loc) (v : CellVariable) :
  cells w !! var = Some v ->
  exists c',
    Add var {| this := c; world := w |} =
      Returns tt {| this := c'; world := w |} /\
    varVector_ c' = (varVector_ c ++ [var])%list /\
    varMap_ c' = <[label v := var]> (varMap_ c) /\
    faceVector_ c' = faceVector_ c /\ faceMap_ c' = faceMap_ c /\
    pmy_block c' = pmy_block c.
Proof.
  intros H. eexists. split; [by apply Add_Returns|]. by repeat split.
Qed.

Lemma Add_appends_and_overwrites_witness :
  cells two_rho !! 2%positive = Some rho_b /\
  exists c',
    Add 2%positive {| this := holds_rho_a; world := two_rho |} =
      Returns tt {| this := c'; world := two_rho |} /\
    varVector_ c' = (varVector_ holds_rho_a ++ [2%positive])%list /\
    varMap_ c' = <[label rho_b := 2%positive]> (varMap_ holds_rho_a) /\
    faceVector_ c' = faceVector_ holds_rho_a /\
    faceMap_ c' = faceMap_ holds_rho_a /\
    pmy_block c' = pmy_block holds_rho_a.
Proof.
  split; [reflexivity|].
  apply (Add_appends_and_overwrites holds_rho_a two_rho 2%positive rho_b).
  reflexivity.
Defined.

(** ** Sparse allocation *)





(** ** Equality of containers *)

Lemma elem_of_std_map_keys {V} (m : gmap string V) (k : string) :
  k ∈ std_map_keys m <-> k ∈ dom m.
Proof.
  unfold std_map_keys. rewrite merge_sort_Permutation. apply elem_of_elements.
Qed.

Lemma std_map_keys_dom {V W} (m1 : gmap string V) (m2 : gmap string W) :
  dom m1 = dom m2 -> std_map_keys m1 = std_map_keys m2.
Proof. unfold std_map_keys. by intros ->. Qed.

Lemma std_map_keys_sorted {V} (m : gmap string V) :
  StronglySorted String.le (std_map_keys m).
Proof. apply StronglySorted_merge_sort; apply _. Qed.

Lemma std_map_keys_NoDup {V} (m : gmap string V) : NoDup (std_map_keys m).
Proof.
  unfold std_map_keys. rewrite merge_sort_Permutation. apply NoDup_elements.
Qed.

(** C2, as claimed, fails: the keys of the dense map are compared in
    sequence before the keys of the face map.  A container with the dense
    variable "a" and the face variable "b" and one with the dense variable
    "b" and the face variable "a" have the same set of labels and compare
    unequal. *)
Lemma operator_eq_counterexample :
  label_set dense_a_face_b = label_set dense_b_face_a /\
  operator_eq dense_a_face_b dense_b_face_a = false.
Proof.
  split.
  - unfold label_set, dense_a_face_b, dense_b_face_a. simpl.
    rewrite !dom_singleton_L. apply (comm_L (∪)).
  - vm_compute. reflexivity.
Qed.

(** C2, amended.  [a == b] is true exactly when the increasing sequence of
    a's dense labels followed by the increasing sequence of a's face labels
    equals the same sequence of b.  Hence: if it is true the label sets
    (dense and face together) of a and b are identical; and it is true
    whenever the dense label sets are identical and the face label sets are
    identical.  Only the keys of the two maps are read: the records the maps
    point to and their storage take no part, so containers with identical
    dense and face names and different contents compare equal. *)
Theorem operator_eq_spec (a b : MeshBlockData) :
  (operator_eq a b = true <->
   (std_map_keys (varMap_ a) ++ std_map_keys (faceMap_ a))%list =
   (std_map_keys (varMap_ b) ++ std_map_keys (faceMap_ b))%list) /\
  (operator_eq a b = true -> label_set a = label_set b) /\
  (dom (varMap_ a) = dom (varMap_ b) -> dom (faceMap_ a) = dom (faceMap_ b) ->
   operator_eq a b = true).
Proof.
  assert (Hiff : operator_eq a b = true <->
    (std_map_keys (varMap_ a) ++ std_map_keys (faceMap_ a))%list =
    (std_map_keys (varMap_ b) ++ std_map_keys (faceMap_ b))%list).
  { unfold operator_eq. apply bool_decide_eq_true. }
  split; [exact Hiff|]. split.
  - intros H%Hiff. unfold label_set. apply set_eq. intros k.
    rewrite !elem_of_union, <- !elem_of_std_map_keys, <- !elem_of_app.
    by rewrite H.
  - intros Hv Hf. apply Hiff.
    by rewrite (std_map_keys_dom _ _ Hv), (std_map_keys_dom _ _ Hf).
Qed.

Lemma operator_eq_spec_witness :
  dom (varMap_ holds_rho_a) = dom (varMap_ same_names_other_records) /\
  dom (faceMap_ holds_rho_a) = dom (faceMap_ same_names_other_records) /\
  cells two_rho !! 1%positive <> cells two_rho !! 2%positive /\
  operator_eq holds_rho_a same_names_other_records = true.
Proof.
  assert (Hv : dom (varMap_ holds_rho_a) =
               dom (varMap_ same_names_other_records)).
  { simpl. by rewrite !dom_singleton_L. }
  assert (Hf : dom (faceMap_ holds_rho_a) =
               dom (faceMap_ same_names_other_records)) by reflexivity.
  split; [exact Hv|]. split; [exact Hf|]. split; [by vm_compute|].
  exact (proj2 (proj2 (operator_eq_spec holds_rho_a same_names_other_records))
           Hv Hf).
Defined.

(** ** Invariants of computations *)

Lemma pure_query_preserves {A} I (m : M State A) :
  pure_query m -> preserves I m.
Proof.
  intros Hq st HI. specialize (Hq st). destruct (m st); by subst.
Qed.

Lemma preserves_ret {A} I (a : A) : preserves I (mret a).
Proof. by intros st HI. Qed.

Lemma preserves_throw {A} I ex : preserves I (throw ex : M State A).
Proof. by intros st HI. Qed.

Lemma preserves_undefined {A} I : preserves I (undefined : M State A).
Proof. by intros st HI. Qed.

Lemma preserves_bind {A B} I (m : M State A) (k : A -> M State B) :
  preserves I m -> (forall a, preserves I (k a)) -> preserves I (m ≫= k).
Proof.
  intros Hm Hk st HI. specialize (Hm st HI). munfold.
  destruct (m st) as [a st'| |]; [by apply Hk | done | done].
Qed.

Lemma preserves_foreach {A} I (l : list A) (body : A -> M State unit) :
  (forall x, x ∈ l -> preserves I (body x)) -> preserves I (foreach l body).
Proof.
  induction l as [|x l IH]; intros Hb; simpl.
  - apply preserves_ret.
  - apply preserves_bind.
    + apply Hb. by left.
    + intros _. apply IH. intros y Hy. apply Hb. by right.
Qed.

Lemma pure_query_bind {A B} (m : M State A) (k : A -> M State B) :
  pure_query m -> (forall a, pure_query (k a)) -> pure_query (m ≫= k).
Proof.
  intros Hm Hk st. specialize (Hm st). munfold.
  destruct (m st) as [a st'| |]; subst; [apply Hk | done | done].
Qed.

Lemma pure_query_call_on {A} other (m : M State A) :
  pure_query m -> pure_query (call_on other m).
Proof.
  intros Hm st. unfold call_on.
  specialize (Hm {| this := other; world := world st |}).
  destruct (m _) as [a st'| |]; subst; simpl; by try apply State_eta.
Qed.

Lemma pure_query_get_this : pure_query get_this.
Proof. by intros st. Qed.

Lemma pure_query_get_world : pure_query get_world.
Proof. by intros st. Qed.

Lemma pure_query_ret {A} (a : A) : pure_query (mret a).
Proof. by intros st. Qed.

Lemma pure_query_throw {A} ex : pure_query (throw ex : M State A).
Proof. by intros st. Qed.

Lemma pure_query_undefined {A} : pure_query (undefined : M State A).
Proof. by intros st. Qed.

Lemma pure_query_deref_cell p : pure_query (deref_cell p).
Proof. intros st. unfold deref_cell. by destruct (_ !! _). Qed.

Lemma pure_query_deref_face p : pure_query (deref_face p).
Proof. intros st. unfold deref_face. by destruct (_ !! _). Qed.

Lemma pure_query_deref_block p : pure_query (deref_block p).
Proof. intros st. unfold deref_block. by destruct (_ !! _). Qed.

Lemma pure_query_GetBlockPointer : pure_query GetBlockPointer.
Proof.
  intros st. unfold GetBlockPointer. munfold.
  destruct (expired _ _); [done|]. by destruct (lock _ _).
Qed.

Lemma pure_query_HasCellVariable l : pure_query (HasCellVariable l).
Proof. by intros st. Qed.

Lemma pure_query_GetCellVarPtr l : pure_query (GetCellVarPtr l).
Proof.
  intros st. unfold GetCellVarPtr. munfold. by destruct (_ !! _).
Qed.

Lemma pure_query_REQUIRE cond msg :
  pure_query (PARTHENON_REQUIRE_THROWS cond msg : M State unit).
Proof. intros st. unfold PARTHENON_REQUIRE_THROWS. by destruct cond. Qed.

Create HintDb mquery.
#[global] Hint Resolve pure_query_get_this pure_query_get_world
  pure_query_ret pure_query_throw pure_query_undefined
  pure_query_deref_cell pure_query_deref_face pure_query_deref_block
  pure_query_GetBlockPointer pure_query_HasCellVariable
  pure_query_GetCellVarPtr pure_query_REQUIRE pure_query_call_on
  pure_query_preserves : mquery.

(** ** The ordered sequences and the name maps *)

Lemma registry_inv_mono (lab lab' : loc -> option string) vec m :
  (forall p l, lab p = Some l -> lab' p = Some l) ->
  registry_inv lab vec m -> registry_inv lab' vec m.
Proof.
  intros Hle [H1 H2]. split.
  - intros p Hp. destruct (H1 p Hp) as (l & Hl & Hm). eauto.
  - intros l p Hm. destruct (H2 l p Hm). eauto.
Qed.

Lemma registry_inv_add lab vec m p l :
  lab p = Some l -> registry_inv lab vec m ->
  registry_inv lab (vec ++ [p]) (<[l := p]> m).
Proof.
  intros Hl [H1 H2]. split.
  - intros q [Hq | ->%list_elem_of_singleton]%elem_of_app.
    + destruct (H1 q Hq) as (l' & Hl' & Hm). exists l'. split; [done|].
      rewrite lookup_insert_is_Some. destruct (decide (l = l')); auto.
    + exists l. split; [done|]. rewrite lookup_insert_eq. eauto.
  - intros l' q. rewrite lookup_insert. case_decide as Hd.
    + intros [= <-]. subst l'. split; [|done].
      apply elem_of_app. right. by apply list_elem_of_singleton.
    + intros Hm. destruct (H2 l' q Hm). split; [|done].
      apply elem_of_app. by left.
Qed.

Lemma NoDup_fmap_elem_inj {A B} (f : A -> B) (l : list A) x y :
  NoDup (f <$> l) -> x ∈ l -> y ∈ l -> f x = f y -> x = y.
Proof.
  induction l as [|a l IH]; simpl; [by intros _ ?%elem_of_nil|].
  intros [Hna Hnd]%NoDup_cons [->|Hx]%elem_of_cons [->|Hy]%elem_of_cons Hf.
  - done.
  - exfalso. apply Hna. rewrite Hf. by apply list_elem_of_fmap_2.
  - exfalso. apply Hna. rewrite <- Hf. by apply list_elem_of_fmap_2.
  - by apply IH.
Qed.

Lemma registry_inv_consistent lab vec m :
  registry_inv lab vec m -> NoDup (lab <$> vec) -> consistent lab vec m.
Proof.
  intros [H1 H2] Hnd. split; [by eapply NoDup_fmap_1|]. split; [|done].
  intros p Hp. destruct (H1 p Hp) as (l & Hl & [q Hq]).
  exists l. split; [done|]. destruct (H2 l q Hq) as [Hqv Hql].
  rewrite Hq. f_equal. apply (NoDup_fmap_elem_inj lab vec); congruence.
Qed.

Lemma preserves_after {A} I (m : M State A) st st' :
  preserves I m -> I st -> after (m st) = Some st' -> I st'.
Proof.
  intros Hp HI Ha. specialize (Hp st HI).
  destruct (m st); simpl in Ha; by simplify_eq.
Qed.

Lemma labels_le_refl w : labels_le w w.
Proof. by split. Qed.

Lemma labels_le_trans w1 w2 w3 :
  labels_le w1 w2 -> labels_le w2 w3 -> labels_le w1 w3.
Proof. intros [H1 H2] [H3 H4]. split; eauto. Qed.

Lemma state_inv_world c w w' :
  labels_le w w' ->
  state_inv {| this := c; world := w |} ->
  state_inv {| this := c; world := w' |}.
Proof.
  intros [Hc Hf] [H1 H2]. split; simpl in *.
  - by apply (registry_inv_mono (label_at w)).
  - by apply (registry_inv_mono (flabel_at w)).
Qed.

Lemma labels_le_Allocate w pmb p :
  labels_le w (set_cells (alter (CellVariable_Allocate pmb) p) w).
Proof.
  split; [|done]. intros q l. unfold label_at. simpl.
  destruct (decide (p = q)) as [<-|Hne].
  - rewrite lookup_alter_eq. destruct (cells w !! p) as [v|]; [|done]. simpl.
    unfold CellVariable_Allocate. by destruct (is_allocated_ v).
  - by rewrite lookup_alter_ne.
Qed.

Lemma labels_le_fresh_cell w v :
  labels_le w (set_cells (insert (fresh (dom (cells w))) v) w).
Proof.
  split; [|done]. intros q l. unfold label_at. simpl. intros Hq.
  rewrite lookup_insert_ne; [done|]. intros <-.
  destruct (cells w !! fresh (dom (cells w))) eqn:E; [|done].
  apply (is_fresh (dom (cells w))). apply elem_of_dom. eauto.
Qed.

Lemma labels_le_blocks w f : labels_le w (set_blocks f w).
Proof. by split. Qed.

Lemma preserves_Add var : preserves state_inv (Add var).
Proof.
  intros [c w] [H1 H2].
  destruct (cells w !! var) as [v|] eqn:E.
  - rewrite (Add_Returns _ _ _ _ E). split; simpl in *; [|done].
    apply registry_inv_add; [|done]. unfold label_at. by rewrite E.
  - by rewrite (Add_dangling _ _ _ E).
Qed.

Lemma preserves_Add_face var : preserves state_inv (Add_face var).
Proof.
  intros [c w] [H1 H2].
  destruct (faces w !! var) as [v|] eqn:E.
  - rewrite (Add_face_Returns _ _ _ _ E). split; simpl in *; [done|].
    apply registry_inv_add; [|done]. unfold flabel_at. by rewrite E.
  - by rewrite (Add_face_dangling _ _ _ E).
Qed.

Lemma preserves_set_pmy_block p :
  preserves state_inv (modify_this (set_pmy_block p)).
Proof. by intros [c w] [H1 H2]. Qed.

Lemma preserves_Allocate var pmb : preserves state_inv (Allocate var pmb).
Proof.
  intros [c w] HI. unfold Allocate. munfold. simpl.
  destruct (cells w !! var); [|done].
  eapply state_inv_world; [apply labels_le_Allocate | done].
Qed.

Lemma preserves_AllocateCopy var pmb :
  preserves state_inv (AllocateCopy var pmb).
Proof.
  intros [c w] HI. unfold AllocateCopy. munfold. simpl.
  destruct (cells w !! var); [|done].
  eapply state_inv_world; [apply labels_le_fresh_cell | done].
Qed.

Lemma copy_then_add_Returns c w v r :
  cells w !! v = Some r ->
  let n := fresh (dom (cells w)) in
  copy_then_add v {| this := c; world := w |} =
    Returns tt {| this := assign_varMap (label r) n (push_var n c);
                  world := set_cells (insert n r) w |}.
Proof.
  intros Hv n. unfold copy_then_add, AllocateCopy, Add. munfold. simpl.
  rewrite Hv. simpl. fold n. by rewrite lookup_insert_eq.
Qed.

Lemma copy_then_add_dangling c w v :
  cells w !! v = None ->
  copy_then_add v {| this := c; world := w |} = Undefined.
Proof.
  intros Hv. unfold copy_then_add, AllocateCopy. munfold. simpl.
  by rewrite Hv.
Qed.

Lemma call_on_GetCellVariableVector src st :
  call_on src GetCellVariableVector st = Returns (varVector_ src) st.
Proof. unfold GetCellVariableVector. munfold. simpl. by rewrite State_eta. Qed.

Lemma call_on_GetFaceVector src st :
  call_on src GetFaceVector st = Returns (faceVector_ src) st.
Proof. unfold GetFaceVector. munfold. simpl. by rewrite State_eta. Qed.

Lemma call_on_GetCellVariableMap src st :
  call_on src GetCellVariableMap st = Returns (varMap_ src) st.
Proof. unfold GetCellVariableMap. munfold. simpl. by rewrite State_eta. Qed.

Lemma preserves_bind_Returns {A B} I (m : M State A) (k : A -> M State B) a :
  (forall st, m st = Returns a st) -> preserves I (k a) ->
  preserves I (m ≫= k).
Proof.
  intros Hm Hk st HI. rewrite (bind_Returns _ _ _ _ _ (Hm st)). by apply Hk.
Qed.

(** An invariant kept by the elementary changes is kept by the compound
    member functions; [ok] tells which records of a source may be taken
    over. *)
Section Structural.
Variable I : State -> Prop.
Variable ok : loc -> Prop.
Hypothesis I_share : forall v, ok v -> preserves I (Add v).
Hypothesis I_copy : forall v, ok v -> preserves I (copy_then_add v).
Hypothesis I_face : forall v, preserves I (Add_face v).
Hypothesis I_pmy : forall p, preserves I (modify_this (set_pmy_block p)).
Hypothesis I_alloc : forall v pmb, preserves I (Allocate v pmb).
Hypothesis I_dt : forall b dt,
  preserves I (modify_world (set_blocks (alter (MeshBlock_SetAllowedDt dt) b))).

Lemma struct_SetBlockPointer_from other :
  preserves I (SetBlockPointer_from other).
Proof.
  apply preserves_bind; [auto with mquery|]. intros b. apply I_pmy.
Qed.

Lemma struct_SetAllowedDt dt : preserves I (SetAllowedDt dt).
Proof.
  apply preserves_bind; [auto with mquery|]. intros b.
  apply preserves_bind; [auto with mquery|]. intros _. apply I_dt.
Qed.

Lemma struct_AllocateSparse l : preserves I (AllocateSparse l).
Proof.
  unfold AllocateSparse.
  apply preserves_bind; [auto with mquery|]. intros has.
  apply preserves_bind.
  { destruct (negb has); [apply preserves_throw | apply preserves_ret]. }
  intros _. apply preserves_bind; [auto with mquery|]. intros var.
  apply preserves_bind; [auto with mquery|]. intros v.
  apply preserves_bind; [auto with mquery|]. intros _.
  apply preserves_bind; [auto with mquery|]. intros c.
  apply preserves_bind; [apply I_alloc|]. intros _.
  apply preserves_ret.
Qed.

Lemma struct_share_or_copy v :
  ok v ->
  preserves I
    (r ← deref_cell v;
     if IsSet r OneCopy then Add v
     else (c ← get_this; n ← AllocateCopy v (pmy_block c); Add n)).
Proof.
  intros Hv.
  apply preserves_bind; [auto with mquery|]. intros r.
  destruct (IsSet r OneCopy); [by apply I_share | by apply I_copy].
Qed.

Lemma struct_Copy src :
  (forall v, v ∈ varVector_ src -> ok v) -> preserves I (Copy src).
Proof.
  intros Hok. unfold Copy.
  apply preserves_bind; [apply struct_SetBlockPointer_from|]. intros _.
  apply (preserves_bind_Returns _ _ _ (varVector_ src));
    [apply call_on_GetCellVariableVector|].
  apply preserves_bind.
  { apply preserves_foreach. intros v Hv.
    by apply struct_share_or_copy, Hok. }
  intros _.
  apply (preserves_bind_Returns _ _ _ (faceVector_ src));
    [apply call_on_GetFaceVector|].
  apply preserves_foreach. intros v _.
  apply preserves_bind; [auto with mquery|]. intros r.
  destruct (FaceIsSet r OneCopy); [apply I_face | apply preserves_throw].
Qed.

Lemma struct_Copy_names src names :
  (forall n v, n ∈ names -> varMap_ src !! n = Some v -> ok v) ->
  preserves I (Copy_names src names).
Proof.
  intros Hok. unfold Copy_names.
  apply preserves_bind; [apply struct_SetBlockPointer_from|]. intros _.
  apply preserves_foreach. intros name Hname.
  apply (preserves_bind_Returns _ _ _ (varMap_ src));
    [apply call_on_GetCellVariableMap|].
  destruct (varMap_ src !! name) as [v|] eqn:E; [|apply preserves_throw].
  by apply struct_share_or_copy, (Hok name).
Qed.

Lemma struct_exec op : op_ok ok op -> preserves I (exec op).
Proof.
  destruct op; simpl; intros Hok.
  - by apply I_share.
  - apply I_face.
  - by apply struct_Copy.
  - by apply struct_Copy_names.
  - apply preserves_bind; [apply struct_AllocateSparse|].
    intros _. apply preserves_ret.
  - apply I_pmy.
  - apply struct_SetBlockPointer_from.
  - apply struct_SetAllowedDt.
Qed.
End Structural.

Lemma preserves_copy_then_add v : preserves state_inv (copy_then_add v).
Proof.
  apply preserves_bind; [auto with mquery|]. intros c.
  apply preserves_bind; [apply preserves_AllocateCopy|]. intros n.
  apply preserves_Add.
Qed.

Lemma preserves_set_blocks f :
  preserves state_inv (modify_world (set_blocks f)).
Proof.
  intros [c w] HI. eapply state_inv_world; [apply labels_le_blocks | done].
Qed.

Lemma preserves_exec op : preserves state_inv (exec op).
Proof.
  apply (struct_exec state_inv (fun _ => True));
    auto using preserves_Add, preserves_copy_then_add, preserves_Add_face,
      preserves_set_pmy_block, preserves_Allocate, preserves_set_blocks.
  by destruct op.
Qed.

Lemma state_inv_default w :
  state_inv {| this := MeshBlockData_default; world := w |}.
Proof.
  split; (split; simpl; [by intros p ?%elem_of_nil | by intros l p ?]).
Qed.

Lemma reachable_state_inv st : reachable st -> state_inv st.
Proof.
  induction 1 as [w | st st' op _ IH Hstep].
  - apply state_inv_default.
  - by apply (preserves_after _ (exec op) st st' (preserves_exec op)).
Qed.

Lemma folded_add lab vec m p l :
  lab p = Some l -> folded lab vec m -> folded lab (vec ++ [p]) (<[l := p]> m).
Proof.
  intros Hl [Hv ->]. split.
  - apply Forall_app. split; [done|]. constructor; [by rewrite Hl | done].
  - unfold map_of. rewrite foldl_snoc.
    change (foldl (bind_label lab) ∅ vec) with (map_of lab vec).
    unfold bind_label. by rewrite Hl.
Qed.

Lemma foldl_labels_ext (lab lab' : loc -> option string) vec : forall acc,
  (forall p l, lab p = Some l -> lab' p = Some l) ->
  Forall (fun p => is_Some (lab p)) vec ->
  foldl (bind_label lab) acc vec = foldl (bind_label lab') acc vec.
Proof.
  induction vec as [|p vec IH]; intros acc Hle Hv; simpl; [done|].
  apply Forall_cons in Hv as [[l Hl] Hv].
  assert (bind_label lab acc p = bind_label lab' acc p) as ->
    by (unfold bind_label; by rewrite Hl, (Hle _ _ Hl)).
  by apply IH.
Qed.

Lemma folded_mono (lab lab' : loc -> option string) vec m :
  (forall p l, lab p = Some l -> lab' p = Some l) ->
  folded lab vec m -> folded lab' vec m.
Proof.
  intros Hle [Hv ->]. split.
  - eapply Forall_impl; [exact Hv|]. intros p [l Hl]. eauto.
  - by apply foldl_labels_ext.
Qed.

Lemma state_folded_world c w w' :
  labels_le w w' ->
  state_folded {| this := c; world := w |} ->
  state_folded {| this := c; world := w' |}.
Proof.
  intros [Hc Hf] [H1 H2]. split; simpl in *.
  - by apply (folded_mono (label_at w)).
  - by apply (folded_mono (flabel_at w)).
Qed.

Lemma folded_Add var : preserves state_folded (Add var).
Proof.
  intros [c w] [H1 H2].
  destruct (cells w !! var) as [v|] eqn:E.
  - rewrite (Add_Returns _ _ _ _ E). split; simpl in *; [|done].
    apply folded_add; [|done]. unfold label_at. by rewrite E.
  - by rewrite (Add_dangling _ _ _ E).
Qed.

Lemma folded_Add_face var : preserves state_folded (Add_face var).
Proof.
  intros [c w] [H1 H2].
  destruct (faces w !! var) as [v|] eqn:E.
  - rewrite (Add_face_Returns _ _ _ _ E). split; simpl in *; [done|].
    apply folded_add; [|done]. unfold flabel_at. by rewrite E.
  - by rewrite (Add_face_dangling _ _ _ E).
Qed.

Lemma folded_copy_then_add v : preserves state_folded (copy_then_add v).
Proof.
  intros [c w] H. destruct (cells w !! v) as [r|] eqn:E.
  - rewrite (copy_then_add_Returns _ _ _ _ E).
    apply (state_folded_world c w _ (labels_le_fresh_cell w r)) in H.
    destruct H as [H1 H2]. split; simpl in *; [|done].
    apply folded_add; [|done]. unfold label_at. simpl.
    by rewrite lookup_insert_eq.
  - by rewrite (copy_then_add_dangling _ _ _ E).
Qed.

Lemma folded_Allocate var pmb : preserves state_folded (Allocate var pmb).
Proof.
  intros [c w] HI. unfold Allocate. munfold. simpl.
  destruct (cells w !! var); [|done].
  eapply state_folded_world; [apply labels_le_Allocate | done].
Qed.

Lemma folded_exec op : preserves state_folded (exec op).
Proof.
  apply (struct_exec state_folded (fun _ => True));
    auto using folded_Add, folded_copy_then_add, folded_Add_face,
      folded_Allocate.
  - by intros p [c w] H.
  - intros b dt [c w] H.
    eapply state_folded_world; [apply labels_le_blocks | done].
  - by destruct op.
Qed.

Lemma reachable_state_folded st : reachable st -> state_folded st.
Proof.
  induction 1 as [w | st st' op _ IH Hstep].
  - by repeat split.
  - by apply (preserves_after _ (exec op) st st' (folded_exec op)).
Qed.

Lemma consistent_NoDup_labels lab vec m :
  consistent lab vec m -> NoDup (lab <$> vec).
Proof.
  intros (Hnd & H1 & H2). apply NoDup_fmap_2_strong; [|done].
  intros p q Hp Hq Heq.
  destruct (H1 p Hp) as (l & Hl & Hm). destruct (H1 q Hq) as (l' & Hl' & Hm').
  congruence.
Qed.

Lemma holds_two_rho_reachable :
  reachable {| this := holds_two_rho; world := two_rho |}.
Proof.
  eapply (reachable_step _ _ (OpAdd 2%positive)).
  - eapply (reachable_step _ _ (OpAdd 1%positive)).
    + apply (reachable_default two_rho).
    + simpl. rewrite (Add_Returns _ _ _ rho_a); [|reflexivity]. reflexivity.
  - simpl. rewrite (Add_Returns _ _ _ rho_b); reflexivity.
Qed.

(** C1, as claimed, fails: after Add of two records with the label "rho"
    the first record is in the sequence and not in the map. *)
Lemma registry_consistency_counterexample :
  reachable {| this := holds_two_rho; world := two_rho |} /\
  ~ state_consistent {| this := holds_two_rho; world := two_rho |}.
Proof.
  split; [apply holds_two_rho_reachable|].
  intros [(_ & H1 & _) _]. simpl in H1.
  destruct (H1 1%positive) as (l & Hl & Hm); [by left|].
  vm_compute in Hl. injection Hl as <-. vm_compute in Hm. discriminate Hm.
Qed.

(** C1, amended.  In every state reached through Add, Copy, AllocateSparse,
    SetBlockPointer and SetAllowedDt, for the dense and for the face
    variables alike: every entry of the name map is a record of the ordered
    sequence, stored under that record's label, and the label of every
    record of the sequence is a key of the map; the map is the one obtained
    by inserting the records of the sequence in order under their labels,
    so that it keeps the record added last under a label.  The two are in
    one-to-one correspondence exactly when no two records of the sequence
    carry the same label; Add does not refuse a label that is present. *)
Theorem reachable_registry_invariant (st : State) :
  reachable st ->
  state_inv st /\
  varMap_ (this st) = map_of (label_at (world st)) (varVector_ (this st)) /\
  faceMap_ (this st) = map_of (flabel_at (world st)) (faceVector_ (this st)) /\
  (consistent (label_at (world st)) (varVector_ (this st))
     (varMap_ (this st)) <->
   NoDup (label_at (world st) <$> varVector_ (this st))) /\
  (consistent (flabel_at (world st)) (faceVector_ (this st))
     (faceMap_ (this st)) <->
   NoDup (flabel_at (world st) <$> faceVector_ (this st))).
Proof.
  intros Hr. pose proof (reachable_state_folded st Hr) as [[_ Hm] [_ Hfm]].
  apply reachable_state_inv in Hr as [Hd Hf].
  split; [by split|]. split; [done|]. split; [done|].
  split; (split; [apply consistent_NoDup_labels|]);
    by apply registry_inv_consistent.
Qed.

Lemma reachable_registry_invariant_witness :
  let st := {| this := {| pmy_block := None;
                          varVector_ := [1%positive; 2%positive];
                          faceVector_ := [];
                          varMap_ := <["p" := 2%positive]>
                                       (<["rho" := 1%positive]> ∅);
                          faceMap_ := ∅ |};
               world := rho_and_p |} in
  reachable st /\
  consistent (label_at (world st)) (varVector_ (this st)) (varMap_ (this st)).
Proof.
  intros st.
  assert (Hr : reachable st).
  { eapply (reachable_step _ _ (OpAdd 2%positive)).
    - eapply (reachable_step _ _ (OpAdd 1%positive)).
      + apply (reachable_default rho_and_p).
      + simpl. rewrite (Add_Returns _ _ _ rho_a); reflexivity.
    - simpl. rewrite (Add_Returns _ _ _ pressure); reflexivity. }
  split; [exact Hr|].
  apply (proj1 (proj2 (proj2 (proj2 (reachable_registry_invariant st Hr))))).
  apply (bool_decide_unpack _). vm_compute. exact I.
Defined.

(** ** Looking up what was added *)


Section Has.
Variable L : string.






End Has.

Section Tracked.
Variables (L : string) (var : loc) (w0 : World).






End Tracked.








(** ** Deriving a container from another *)

Lemma SetBlockPointer_from_live other c w :
  expired w (pmy_block other) = false ->
  exists b, pmy_block other = Some b /\
    SetBlockPointer_from other {| this := c; world := w |} =
      Returns tt {| this := set_pmy_block (Some b) c; world := w |}.
Proof.
  intros H.
  destruct (GetBlockPointer_live {| this := other; world := w |} H)
    as (b & Hb & _ & Hg).
  exists b. split; [done|]. unfold SetBlockPointer_from.
  rewrite (bind_Returns _ _ _ b {| this := c; world := w |}); [reflexivity|].
  unfold call_on. simpl. by rewrite Hg.
Qed.

Lemma SetBlockPointer_from_expired other c w :
  expired w (pmy_block other) = true ->
  SetBlockPointer_from other {| this := c; world := w |} =
    Throws (runtime_error "Invalid pointer to MeshBlock!")
           {| this := c; world := w |}.
Proof.
  intros H. unfold SetBlockPointer_from. apply bind_Throws.
  unfold call_on. simpl.
  by rewrite (GetBlockPointer_expired {| this := other; world := w |} H).
Qed.

Lemma share_or_copy_Returns c w v r :
  cells w !! v = Some r ->
  share_or_copy v {| this := c; world := w |} =
    if IsSet r OneCopy
    then Returns tt {| this := assign_varMap (label r) v (push_var v c);
                       world := w |}
    else let n := fresh (dom (cells w)) in
         Returns tt {| this := assign_varMap (label r) n (push_var n c);
                       world := set_cells (insert n r) w |}.
Proof.
  intros Hv. unfold share_or_copy.
  rewrite (bind_Returns _ _ _ r {| this := c; world := w |});
    [|unfold deref_cell; simpl; by rewrite Hv].
  destruct (IsSet r OneCopy).
  - by apply Add_Returns.
  - by apply (copy_then_add_Returns c w v r).
Qed.

Lemma fresh_cell_None w : cells w !! fresh (dom (cells w)) = None.
Proof. apply not_elem_of_dom. apply is_fresh. Qed.

Lemma taken_over_rebase w w1 w' vs ps :
  cells w ⊆ cells w1 ->
  Forall (fun v => is_Some (cells w !! v)) vs ->
  Forall2 (taken_over w1 w') vs ps -> Forall2 (taken_over w w') vs ps.
Proof.
  intros Hsub Hvs Hall. induction Hall as [|x q xs qs Hx _ IH]; constructor.
  - destruct Hx as (rx & Hrx & Hq).
    apply Forall_inv in Hvs as [rx0 Hrx0].
    assert (rx = rx0) as ->.
    { pose proof (lookup_weaken _ _ _ _ Hrx0 Hsub). congruence. }
    exists rx0. split; [done|]. destruct (IsSet rx0 OneCopy); [done|].
    destruct Hq as [Hqn Hqc]. split; [|done].
    destruct (cells w !! q) eqn:E; [|done].
    pose proof (lookup_weaken _ _ _ _ E Hsub). congruence.
  - apply IH. by eapply Forall_inv_tail.
Qed.

Lemma dense_loop vs : forall c w,
  Forall (fun v => is_Some (cells w !! v)) vs ->
  exists c' w' ps,
    foreach vs share_or_copy {| this := c; world := w |} =
      Returns tt {| this := c'; world := w' |} /\
    varVector_ c' = (varVector_ c ++ ps)%list /\
    Forall2 (taken_over w w') vs ps /\
    cells w ⊆ cells w' /\ faces w' = faces w /\ blocks w' = blocks w /\
    pmy_block c' = pmy_block c /\ faceVector_ c' = faceVector_ c /\
    faceMap_ c' = faceMap_ c.
Proof.
  induction vs as [|v vs IH]; intros c w Hvalid.
  - exists c, w, []. simpl. rewrite app_nil_r. by repeat split.
  - apply Forall_cons in Hvalid as [[r Hr] Hvs].
    assert (Hstep : exists c1 w1 p,
      share_or_copy v {| this := c; world := w |} =
        Returns tt {| this := c1; world := w1 |} /\
      varVector_ c1 = (varVector_ c ++ [p])%list /\
      (if IsSet r OneCopy then p = v
       else cells w !! p = None /\ cells w1 !! p = Some r) /\
      cells w ⊆ cells w1 /\ faces w1 = faces w /\ blocks w1 = blocks w /\
      pmy_block c1 = pmy_block c /\ faceVector_ c1 = faceVector_ c /\
      faceMap_ c1 = faceMap_ c).
    { rewrite (share_or_copy_Returns _ _ _ _ Hr).
      destruct (IsSet r OneCopy); do 3 eexists; (split; [reflexivity|]).
      - by repeat split.
      - simpl. split; [done|]. split.
        + split; [apply fresh_cell_None | apply lookup_insert_eq].
        + split; [|done]. apply insert_subseteq, fresh_cell_None. }
    destruct Hstep as
      (c1 & w1 & p & Hs & Hvec & Hp & Hsub & Hf & Hb & Hpm & Hfv & Hfm).
    destruct (IH c1 w1) as
      (c' & w' & ps & Hl & Hvec' & Hall & Hsub' & Hf' & Hb' & Hpm' & Hfv' &
       Hfm').
    { eapply Forall_impl; [exact Hvs|]. intros x [rx Hx].
      exists rx. by eapply lookup_weaken. }
    exists c', w', (p :: ps). split.
    { simpl. by rewrite (bind_Returns _ _ _ _ _ Hs). }
    split. { rewrite Hvec', Hvec, <- app_assoc. done. }
    split.
    { constructor.
      - exists r. split; [done|]. destruct (IsSet r OneCopy); [done|].
        destruct Hp as [Hn Hc]. split; [done|]. by eapply lookup_weaken.
      - by apply (taken_over_rebase w w1 w'). }
    split. { by etrans. }
    repeat split; congruence.
Qed.

Lemma Copy_unfold src :
  Copy src =
    (SetBlockPointer_from src;;
     vs ← call_on src GetCellVariableVector;
     foreach vs share_or_copy;;
     fs ← call_on src GetFaceVector;
     foreach fs share_face).
Proof. reflexivity. Qed.

Lemma Copy_names_unfold src names :
  Copy_names src names =
    (SetBlockPointer_from src;; foreach names (copy_name src)).
Proof. reflexivity. Qed.

Lemma foreach_app {A} (l1 l2 : list A) (body : A -> M State unit) st :
  foreach (l1 ++ l2) body st = (foreach l1 body;; foreach l2 body) st.
Proof.
  revert st. induction l1 as [|x l1 IH]; intros st; simpl; [done|].
  munfold. destruct (body x st) as [[] st1| |]; [|done|done].
  rewrite IH. by munfold.
Qed.

Lemma foreach_ext {A B} (l1 : list A) (l2 : list B)
    (f : A -> M State unit) (g : B -> M State unit) :
  Forall2 (fun x y => forall st, f x st = g y st) l1 l2 ->
  forall st, foreach l1 f st = foreach l2 g st.
Proof.
  induction 1 as [|x y l1 l2 Hxy _ IH]; intros st; simpl; [done|].
  munfold. rewrite Hxy. destruct (g y st) as [[] st1| |]; [apply IH|done|done].
Qed.

Lemma copy_name_found src name v st :
  varMap_ src !! name = Some v -> copy_name src name st = share_or_copy v st.
Proof.
  intros H. unfold copy_name.
  rewrite (bind_Returns _ _ _ _ _ (call_on_GetCellVariableMap src st)).
  by rewrite H.
Qed.

Lemma copy_name_missing src name st :
  varMap_ src !! name = None ->
  copy_name src name st =
    Throws (runtime_error ("MeshBlockData::Copy did not find " +:+ name)) st.
Proof.
  intros H. unfold copy_name.
  rewrite (bind_Returns _ _ _ _ _ (call_on_GetCellVariableMap src st)).
  by rewrite H.
Qed.

Lemma names_loop src names vs :
  Forall2 (fun nm v => varMap_ src !! nm = Some v) names vs ->
  forall st, foreach names (copy_name src) st = foreach vs share_or_copy st.
Proof.
  intros H. apply foreach_ext. eapply Forall2_impl; [exact H|].
  intros nm v Hnm st. by apply copy_name_found.
Qed.

Lemma face_loop_shared fs : forall c w,
  Forall (fun f => exists r, faces w !! f = Some r /\
                             FaceIsSet r OneCopy = true) fs ->
  exists c',
    foreach fs share_face {| this := c; world := w |} =
      Returns tt {| this := c'; world := w |} /\
    faceVector_ c' = (faceVector_ c ++ fs)%list /\
    varVector_ c' = varVector_ c /\ varMap_ c' = varMap_ c /\
    pmy_block c' = pmy_block c.
Proof.
  induction fs as [|f fs IH]; intros c w Hall.
  - exists c. simpl. rewrite app_nil_r. by repeat split.
  - apply Forall_cons in Hall as [(r & Hr & Hone) Hfs].
    destruct (IH (assign_faceMap (flabel r) f (push_face f c)) w Hfs)
      as (c' & Hl & Hfv & Hvv & Hvm & Hpm).
    exists c'. split.
    + simpl. erewrite bind_Returns; [exact Hl|].
      unfold share_face.
      rewrite (bind_Returns _ _ _ r {| this := c; world := w |});
        [|unfold deref_face; simpl; by rewrite Hr].
      rewrite Hone. by apply Add_face_Returns.
    + rewrite Hfv. simpl. rewrite <- app_assoc. by repeat split.
Qed.

Lemma face_loop_throws fs : forall c w,
  Forall (fun f => is_Some (faces w !! f)) fs ->
  Exists (fun f => exists r, faces w !! f = Some r /\
                             FaceIsSet r OneCopy = false) fs ->
  exists st',
    foreach fs share_face {| this := c; world := w |} =
      Throws (runtime_error
                "Non-oneCopy face variables are not yet supported") st'.
Proof.
  induction fs as [|f fs IH]; intros c w Hvalid Hex.
  - by apply Exists_nil in Hex.
  - apply Forall_cons in Hvalid as [[r Hr] Hfs]. simpl.
    assert (Hd : deref_face f {| this := c; world := w |} =
                 Returns r {| this := c; world := w |})
      by (unfold deref_face; simpl; by rewrite Hr).
    destruct (FaceIsSet r OneCopy) eqn:Hone.
    + apply Exists_cons in Hex as [(r' & Hr' & Hone')|Hex]; [congruence|].
      destruct (IH (assign_faceMap (flabel r) f (push_face f c)) w Hfs Hex)
        as [st' Hst'].
      exists st'. erewrite bind_Returns; [exact Hst'|].
      unfold share_face. rewrite (bind_Returns _ _ _ _ _ Hd), Hone.
      by apply Add_face_Returns.
    + eexists. apply bind_Throws. unfold share_face.
      rewrite (bind_Returns _ _ _ _ _ Hd), Hone. reflexivity.
Qed.

Lemma Get_index_yields c i p :
  varVector_ c !! i = Some p -> yields c (Get_index (Z.of_nat i)) p.
Proof.
  intros H w. unfold Get_index. munfold. simpl.
  destruct (Z.of_nat i <? 0)%Z eqn:E; [apply Z.ltb_lt in E; lia|].
  by rewrite Nat2Z.id, H.
Qed.

Lemma Get_yields c l p : varMap_ c !! l = Some p -> yields c (Get l) p.
Proof. intros H w. unfold Get, GetCellVarPtr. munfold. simpl. by rewrite H. Qed.

Lemma write_then_read_eval A accA B accB w p q r d :
  yields A accA p -> yields B accB q -> cells w !! p = Some r ->
  write_then_read A accA d B accB w =
    data <$> (<[p := set_data d r]> (cells w) !! q).
Proof.
  intros HA HB Hp. unfold write_then_read, write_via, read_via.
  munfold. simpl. rewrite HA. simpl. rewrite Hp. simpl. rewrite HB. simpl.
  by destruct (_ !! q).
Qed.

Lemma same_address_aliased A accA B accB w p r :
  yields A accA p -> yields B accB p -> cells w !! p = Some r ->
  aliased A accA B accB w.
Proof.
  intros HA HB Hp d.
  rewrite (write_then_read_eval A accA B accB w p p r d HA HB Hp).
  rewrite (write_then_read_eval B accB A accA w p p r d HB HA Hp).
  by rewrite lookup_insert_eq.
Qed.

Lemma other_address_independent A accA B accB w p q rp rq :
  yields A accA p -> yields B accB q -> p <> q ->
  cells w !! p = Some rp -> cells w !! q = Some rq ->
  independent A accA B accB w (data rp) (data rq).
Proof.
  intros HA HB Hne Hp Hq d.
  rewrite (write_then_read_eval A accA B accB w p q rp d HA HB Hp).
  rewrite (write_then_read_eval B accB A accA w q p rq d HB HA Hq).
  rewrite !lookup_insert_ne by done. by rewrite Hp, Hq.
Qed.

Lemma taken_over_derived w w' src accS c' j v p :
  cells w ⊆ cells w' ->
  taken_over w w' v p -> yields src accS v -> varVector_ c' !! j = Some p ->
  derived_entry w w' src accS c' j v.
Proof.
  intros Hsub (r & Hr & Hp) HS Hj. exists r, p. split; [done|]. split; [done|].
  pose proof (lookup_weaken _ _ _ _ Hr Hsub) as Hr'.
  pose proof (Get_index_yields _ _ _ Hj) as HD.
  destruct (IsSet r OneCopy).
  - subst p. split; [done|]. by apply (same_address_aliased _ _ _ _ _ v r).
  - destruct Hp as [Hn Hc].
    assert (p <> v) by congruence.
    split; [done|]. split; [done|]. split; [done|]. split; [done|].
    by apply (other_address_independent _ _ _ _ _ v p r r).
Qed.

Lemma Copy_returns src c w :
  expired w (pmy_block src) = false -> pointers_valid w src ->
  Forall (fun f => exists r, faces w !! f = Some r /\
                             FaceIsSet r OneCopy = true) (faceVector_ src) ->
  exists c' w' ps,
    Copy src {| this := c; world := w |} =
      Returns tt {| this := c'; world := w' |} /\
    pmy_block c' = pmy_block src /\
    varVector_ c' = (varVector_ c ++ ps)%list /\
    Forall2 (taken_over w w') (varVector_ src) ps /\
    cells w ⊆ cells w' /\
    faceVector_ c' = (faceVector_ c ++ faceVector_ src)%list.
Proof.
  intros Hlive (Hvec & _ & _) Hone.
  destruct (SetBlockPointer_from_live src c w Hlive) as (b & Hb & Hset).
  destruct (dense_loop (varVector_ src) (set_pmy_block (Some b) c) w Hvec)
    as (c1 & w1 & ps & Hl & Hv1 & Hall & Hsub & Hf & _ & Hpm & Hfv & _).
  destruct (face_loop_shared (faceVector_ src) c1 w1)
    as (c' & Hfl & Hfv' & Hvv' & _ & Hpm').
  { by rewrite Hf. }
  exists c', w1, ps. split.
  { rewrite Copy_unfold.
    rewrite (bind_Returns _ _ _ _ _ Hset).
    rewrite (bind_Returns _ _ _ _ _ (call_on_GetCellVariableVector src _)).
    rewrite (bind_Returns _ _ _ _ _ Hl).
    rewrite (bind_Returns _ _ _ _ _ (call_on_GetFaceVector src _)).
    exact Hfl. }
  split. { rewrite Hpm', Hpm. by rewrite Hb. }
  split. { by rewrite Hvv', Hv1. }
  split; [done|]. split; [done|]. by rewrite Hfv', Hfv.
Qed.

Lemma Copy_throws src c w :
  expired w (pmy_block src) = false -> pointers_valid w src ->
  Exists (fun f => exists r, faces w !! f = Some r /\
                             FaceIsSet r OneCopy = false) (faceVector_ src) ->
  exists st',
    Copy src {| this := c; world := w |} =
      Throws (runtime_error
                "Non-oneCopy face variables are not yet supported") st'.
Proof.
  intros Hlive (Hvec & _ & Hfaces) Hex.
  destruct (SetBlockPointer_from_live src c w Hlive) as (b & Hb & Hset).
  destruct (dense_loop (varVector_ src) (set_pmy_block (Some b) c) w Hvec)
    as (c1 & w1 & ps & Hl & _ & _ & _ & Hf & _).
  destruct (face_loop_throws (faceVector_ src) c1 w1) as [st' Hst'].
  { by rewrite Hf. }
  { by rewrite Hf. }
  exists st'. rewrite Copy_unfold.
  rewrite (bind_Returns _ _ _ _ _ Hset).
  rewrite (bind_Returns _ _ _ _ _ (call_on_GetCellVariableVector src _)).
  rewrite (bind_Returns _ _ _ _ _ Hl).
  rewrite (bind_Returns _ _ _ _ _ (call_on_GetFaceVector src _)).
  exact Hst'.
Qed.

Lemma Copy_names_returns src names vs c w :
  expired w (pmy_block src) = false -> pointers_valid w src ->
  Forall2 (fun nm v => varMap_ src !! nm = Some v) names vs ->
  exists c' w' ps,
    Copy_names src names {| this := c; world := w |} =
      Returns tt {| this := c'; world := w' |} /\
    pmy_block c' = pmy_block src /\
    varVector_ c' = (varVector_ c ++ ps)%list /\
    Forall2 (taken_over w w') vs ps /\
    cells w ⊆ cells w'.
Proof.
  intros Hlive (_ & Hmap & _) Hnames.
  destruct (SetBlockPointer_from_live src c w Hlive) as (b & Hb & Hset).
  destruct (dense_loop vs (set_pmy_block (Some b) c) w)
    as (c1 & w1 & ps & Hl & Hv1 & Hall & Hsub & _ & _ & Hpm & _).
  { eapply Forall2_Forall_r; [exact Hnames|]. apply Forall_forall.
    intros nm _ v Hv. by eapply Hmap. }
  exists c1, w1, ps. split.
  { rewrite Copy_names_unfold.
    rewrite (bind_Returns _ _ _ _ _ Hset).
    by rewrite (names_loop _ _ _ Hnames). }
  split. { rewrite Hpm. by rewrite Hb. }
  done.
Qed.

(** *** The name maps after a derivation *)

Lemma foldl_bind_label_other lab vec l : forall m,
  Forall (fun q => lab q <> Some l) vec ->
  foldl (bind_label lab) m vec !! l = m !! l.
Proof.
  induction vec as [|x vec IH]; intros m Hall; [done|].
  apply Forall_cons in Hall as [Hx Hvec]. simpl. rewrite (IH _ Hvec).
  unfold bind_label. destruct (lab x) as [l'|]; [|done].
  apply lookup_insert_ne. congruence.
Qed.

Lemma foldl_bind_label_last lab vec l p m :
  last_labelled lab vec l p -> foldl (bind_label lab) m vec !! l = Some p.
Proof.
  intros (pre & post & -> & Hl & Hpost). rewrite foldl_app. simpl.
  rewrite (foldl_bind_label_other _ _ _ _ Hpost).
  unfold bind_label at 1. rewrite Hl. apply lookup_insert_eq.
Qed.

Lemma dense_loop_map vs : forall c w c' w',
  Forall (fun v => is_Some (cells w !! v)) vs ->
  foreach vs share_or_copy {| this := c; world := w |} =
    Returns tt {| this := c'; world := w' |} ->
  exists ps,
    varVector_ c' = (varVector_ c ++ ps)%list /\ cells w ⊆ cells w' /\
    varMap_ c' = foldl (bind_label (label_at w')) (varMap_ c) ps.
Proof.
  induction vs as [|v vs IH]; intros c w c' w' Hvalid Hrun.
  - injection Hrun as <- <-. exists []. by rewrite app_nil_r.
  - apply Forall_cons in Hvalid as [[r Hr] Hvs].
    assert (Hstep : exists c1 w1 p,
      share_or_copy v {| this := c; world := w |} =
        Returns tt {| this := c1; world := w1 |} /\
      varVector_ c1 = (varVector_ c ++ [p])%list /\
      varMap_ c1 = <[label r := p]> (varMap_ c) /\
      cells w1 !! p = Some r /\ cells w ⊆ cells w1).
    { rewrite (share_or_copy_Returns _ _ _ _ Hr).
      destruct (IsSet r OneCopy); do 3 eexists; (split; [reflexivity|]).
      - by repeat split.
      - simpl. split; [done|]. split; [done|].
        split; [apply lookup_insert_eq|].
        apply insert_subseteq, fresh_cell_None. }
    destruct Hstep as (c1 & w1 & p & Hs & Hvec & Hmap & Hp & Hsub).
    simpl in Hrun. rewrite (bind_Returns _ _ _ _ _ Hs) in Hrun.
    destruct (IH c1 w1 c' w') as (ps & Hvec' & Hsub' & Hmap'); [|done|].
    { eapply Forall_impl; [exact Hvs|]. intros x [rx Hx].
      exists rx. by eapply lookup_weaken. }
    exists (p :: ps). split; [by rewrite Hvec', Hvec, <- app_assoc|].
    split; [by etrans|]. rewrite Hmap', Hmap. simpl. f_equal.
    unfold bind_label, label_at.
    by rewrite (lookup_weaken _ _ _ _ Hp Hsub').
Qed.

Lemma face_loop_map fs : forall c w c' w',
  foreach fs share_face {| this := c; world := w |} =
    Returns tt {| this := c'; world := w' |} ->
  w' = w /\ varVector_ c' = varVector_ c /\ varMap_ c' = varMap_ c /\
  faceMap_ c' = foldl (bind_label (flabel_at w)) (faceMap_ c) fs.
Proof.
  induction fs as [|f fs IH]; intros c w c' w' Hrun.
  - by injection Hrun as <- <-.
  - simpl in Hrun. destruct (faces w !! f) as [r|] eqn:Hf.
    + destruct (FaceIsSet r OneCopy) eqn:Hone.
      * assert (Hs : share_face f {| this := c; world := w |} =
                     Returns tt
                       {| this := assign_faceMap (flabel r) f (push_face f c);
                          world := w |}).
        { unfold share_face.
          rewrite (bind_Returns _ _ _ r {| this := c; world := w |});
            [|unfold deref_face; simpl; by rewrite Hf].
          rewrite Hone. by apply Add_face_Returns. }
        rewrite (bind_Returns _ _ _ _ _ Hs) in Hrun.
        destruct (IH _ _ _ _ Hrun) as (-> & Hvv & Hvm & Hfm).
        split; [done|]. split; [done|]. split; [done|].
        rewrite Hfm. simpl. f_equal.
        unfold bind_label, flabel_at. by rewrite Hf.
      * assert (Hs : share_face f {| this := c; world := w |} =
                     Throws (runtime_error
                       "Non-oneCopy face variables are not yet supported")
                       {| this := c; world := w |}).
        { unfold share_face.
          rewrite (bind_Returns _ _ _ r {| this := c; world := w |});
            [|unfold deref_face; simpl; by rewrite Hf].
          by rewrite Hone. }
        by rewrite (bind_Throws _ _ _ _ _ Hs) in Hrun.
    + assert (Hs : share_face f {| this := c; world := w |} = Undefined).
      { unfold share_face. apply bind_Undefined.
        unfold deref_face. simpl. by rewrite Hf. }
      by rewrite (bind_Undefined _ _ _ Hs) in Hrun.
Qed.

Lemma Copy_maps src c w c' w' ps :
  expired w (pmy_block src) = false -> pointers_valid w src ->
  Copy src {| this := c; world := w |} =
    Returns tt {| this := c'; world := w' |} ->
  varVector_ c' = (varVector_ c ++ ps)%list ->
  varMap_ c' = foldl (bind_label (label_at w')) (varMap_ c) ps /\
  faceMap_ c' =
    foldl (bind_label (flabel_at w')) (faceMap_ c) (faceVector_ src).
Proof.
  intros Hlive (Hvec & _ & _) Hc Hps.
  destruct (SetBlockPointer_from_live src c w Hlive) as (b & Hb & Hset).
  destruct (dense_loop (varVector_ src) (set_pmy_block (Some b) c) w Hvec)
    as (c1 & w1 & ps1 & Hl & Hv1 & _ & _ & _ & _ & _ & _ & Hfm1).
  destruct (dense_loop_map _ _ _ _ _ Hvec Hl) as (ps2 & Hv2 & _ & Hm1).
  rewrite Copy_unfold in Hc.
  rewrite (bind_Returns _ _ _ _ _ Hset) in Hc.
  rewrite (bind_Returns _ _ _ _ _ (call_on_GetCellVariableVector src _)) in Hc.
  rewrite (bind_Returns _ _ _ _ _ Hl) in Hc.
  rewrite (bind_Returns _ _ _ _ _ (call_on_GetFaceVector src _)) in Hc.
  destruct (face_loop_map _ _ _ _ _ Hc) as (-> & Hvv & Hvm & Hfm).
  assert (ps2 = ps) as ->.
  { apply (app_inv_head (varVector_ c)). simpl in Hv2.
    by rewrite <- Hps, Hvv, Hv2. }
  split; [by rewrite Hvm, Hm1 | by rewrite Hfm, Hfm1].
Qed.

Lemma Copy_names_maps src names vs c w c' w' ps :
  expired w (pmy_block src) = false -> pointers_valid w src ->
  Forall2 (fun nm v => varMap_ src !! nm = Some v) names vs ->
  Copy_names src names {| this := c; world := w |} =
    Returns tt {| this := c'; world := w' |} ->
  varVector_ c' = (varVector_ c ++ ps)%list ->
  varMap_ c' = foldl (bind_label (label_at w')) (varMap_ c) ps /\
  faceVector_ c' = faceVector_ c /\ faceMap_ c' = faceMap_ c.
Proof.
  intros Hlive (_ & Hmap & _) Hnames Hc Hps.
  destruct (SetBlockPointer_from_live src c w Hlive) as (b & Hb & Hset).
  assert (Hvs : Forall (fun v => is_Some (cells w !! v)) vs).
  { eapply Forall2_Forall_r; [exact Hnames|]. apply Forall_forall.
    intros nm _ v Hv. by eapply Hmap. }
  destruct (dense_loop vs (set_pmy_block (Some b) c) w Hvs)
    as (c1 & w1 & ps1 & Hl & _ & _ & _ & _ & _ & _ & Hfv1 & Hfm1).
  rewrite Copy_names_unfold in Hc.
  rewrite (bind_Returns _ _ _ _ _ Hset) in Hc.
  rewrite (names_loop _ _ _ Hnames) in Hc.
  rewrite Hl in Hc. injection Hc as <- <-.
  destruct (dense_loop_map _ _ _ _ _ Hvs Hl) as (ps2 & Hv2 & _ & Hm1).
  assert (ps2 = ps) as ->.
  { apply (app_inv_head (varVector_ c)). simpl in Hv2. by rewrite <- Hps, Hv2. }
  done.
Qed.

(** C6.  Let the source's block be alive and its pointers point to live
    objects.  Copy(src) with every face record OneCopy returns; the derived
    container observes the source's block and holds the source's face
    records themselves, appended to its face sequence and bound in its face
    map under their labels.  To its dense sequence it appends one record
    for each dense record of the source, and binds each of them in its name
    map under its label, in the order of the sequence, so that Get(label)
    on the derived container returns the last of them with that label.
    The record at position n+i (n its size before) for the i-th dense
    record v of the source is v itself when v is OneCopy, so that a write
    through either container is read through the other; and when v is not
    OneCopy a record that did not exist before and holds a duplicate of v,
    so that a write through one container is not read through the other.
    Copy(src) with a face record that is not OneCopy throws "Non-oneCopy
    face variables are not yet supported".  Copy(src, names) with every
    name in the source's dense map returns and takes over the named records
    in the same way, leaving the face sequence and the face map as they
    were. *)
Theorem Copy_shares_or_duplicates (src c : MeshBlockData) (w : World) :
  expired w (pmy_block src) = false ->
  pointers_valid w src ->
  let st := {| this := c; world := w |} in
  let n := length (varVector_ c) in
  (Forall (fun f => exists r, faces w !! f = Some r /\
                              FaceIsSet r OneCopy = true) (faceVector_ src) ->
   exists c' w' ps,
     Copy src st = Returns tt {| this := c'; world := w' |} /\
     pmy_block c' = pmy_block src /\
     faceVector_ c' = (faceVector_ c ++ faceVector_ src)%list /\
     faceMap_ c' =
       foldl (bind_label (flabel_at w')) (faceMap_ c) (faceVector_ src) /\
     varVector_ c' = (varVector_ c ++ ps)%list /\
     length ps = length (varVector_ src) /\
     varMap_ c' = foldl (bind_label (label_at w')) (varMap_ c) ps /\
     (forall l p, last_labelled (label_at w') ps l p ->
        yields c' (Get l) p) /\
     forall i v, varVector_ src !! i = Some v ->
       derived_entry w w' src (Get_index (Z.of_nat i)) c' (n + i) v) /\
  (Exists (fun f => exists r, faces w !! f = Some r /\
                              FaceIsSet r OneCopy = false) (faceVector_ src) ->
   exists st',
     Copy src st =
       Throws (runtime_error
                 "Non-oneCopy face variables are not yet supported") st') /\
  (forall names, Forall (fun nm => is_Some (varMap_ src !! nm)) names ->
   exists c' w' ps,
     Copy_names src names st = Returns tt {| this := c'; world := w' |} /\
     pmy_block c' = pmy_block src /\
     faceVector_ c' = faceVector_ c /\ faceMap_ c' = faceMap_ c /\
     varVector_ c' = (varVector_ c ++ ps)%list /\
     length ps = length names /\
     varMap_ c' = foldl (bind_label (label_at w')) (varMap_ c) ps /\
     (forall l p, last_labelled (label_at w') ps l p ->
        yields c' (Get l) p) /\
     forall j nm v, names !! j = Some nm -> varMap_ src !! nm = Some v ->
       derived_entry w w' src (Get nm) c' (n + j) v).
Proof.
  intros Hlive Hvalid st n. split; [|split].
  - intros Hone.
    destruct (Copy_returns src c w Hlive Hvalid Hone)
      as (c' & w' & ps & Hc & Hpm & Hvec & Hall & Hsub & Hfv).
    destruct (Copy_maps src c w c' w' ps Hlive Hvalid Hc Hvec) as [Hm Hfm].
    exists c', w', ps. split; [done|]. split; [done|]. split; [done|].
    split; [done|]. split; [done|].
    split; [symmetry; by eapply Forall2_length|]. split; [done|]. split.
    { intros l p Hlast. apply Get_yields. rewrite Hm.
      by apply foldl_bind_label_last. }
    intros i v Hi.
    destruct (Forall2_lookup_l _ _ _ _ _ Hall Hi) as (p & Hp & Hto).
    apply (taken_over_derived w w' src _ c' (n + i) v p); try done.
    + by apply Get_index_yields.
    + rewrite Hvec, lookup_app_r by (unfold n; lia).
      by replace (n + i - length (varVector_ c)) with i by (unfold n; lia).
  - by apply Copy_throws.
  - intros names Hnames.
    apply Forall_exists_Forall2_l in Hnames as [vs Hvs].
    destruct (Copy_names_returns src names vs c w Hlive Hvalid Hvs)
      as (c' & w' & ps & Hc & Hpm & Hvec & Hall & Hsub).
    destruct (Copy_names_maps src names vs c w c' w' ps Hlive Hvalid Hvs Hc
                Hvec) as (Hm & Hfv & Hfm).
    exists c', w', ps. split; [done|]. split; [done|]. split; [done|].
    split; [done|]. split; [done|]. split.
    { rewrite <- (Forall2_length _ _ _ Hall). symmetry.
      by eapply Forall2_length. }
    split; [done|]. split.
    { intros l p Hlast. apply Get_yields. rewrite Hm.
      by apply foldl_bind_label_last. }
    intros j nm v Hj Hnm.
    destruct (Forall2_lookup_l _ _ _ _ _ Hvs Hj) as (v' & Hv' & Hnm').
    assert (v' = v) as -> by congruence.
    destruct (Forall2_lookup_l _ _ _ _ _ Hall Hv') as (p & Hp & Hto).
    apply (taken_over_derived w w' src _ c' (n + j) v p); try done.
    + by apply Get_yields.
    + rewrite Hvec, lookup_app_r by (unfold n; lia).
      by replace (n + j - length (varVector_ c)) with j by (unfold n; lia).
Qed.

Lemma base_stage_valid : pointers_valid stage_world base_stage.
Proof.
  split; [|split]; apply (bool_decide_unpack _); vm_compute; exact I.
Qed.

Lemma plain_face_stage_valid : pointers_valid plain_face_world plain_face_stage.
Proof.
  split; [|split]; apply (bool_decide_unpack _); vm_compute; exact I.
Qed.

Lemma Copy_shares_or_duplicates_witness :
  (expired stage_world (pmy_block base_stage) = false /\
   exists c' w' ps,
     Copy base_stage
       {| this := MeshBlockData_default; world := stage_world |} =
       Returns tt {| this := c'; world := w' |} /\
     pmy_block c' = pmy_block base_stage /\
     faceVector_ c' = ([] ++ faceVector_ base_stage)%list /\
     faceMap_ c' =
       foldl (bind_label (flabel_at w')) ∅ (faceVector_ base_stage) /\
     varVector_ c' = ([] ++ ps)%list /\
     length ps = length (varVector_ base_stage) /\
     varMap_ c' = foldl (bind_label (label_at w')) ∅ ps /\
     (forall l p, last_labelled (label_at w') ps l p ->
        yields c' (Get l) p) /\
     forall i v, varVector_ base_stage !! i = Some v ->
       derived_entry stage_world w' base_stage (Get_index (Z.of_nat i))
         c' (0 + i) v) /\
  (expired plain_face_world (pmy_block plain_face_stage) = false /\
   exists st',
     Copy plain_face_stage
       {| this := MeshBlockData_default; world := plain_face_world |} =
       Throws (runtime_error
                 "Non-oneCopy face variables are not yet supported") st') /\
  exists c' w' ps,
    Copy_names base_stage ["p"; "rho"]
      {| this := MeshBlockData_default; world := stage_world |} =
      Returns tt {| this := c'; world := w' |} /\
    pmy_block c' = pmy_block base_stage /\
    faceVector_ c' = [] /\ faceMap_ c' = ∅ /\
    varVector_ c' = ([] ++ ps)%list /\
    length ps = 2 /\
    varMap_ c' = foldl (bind_label (label_at w')) ∅ ps /\
    (forall l p, last_labelled (label_at w') ps l p ->
       yields c' (Get l) p) /\
    forall j nm v, ["p"; "rho"] !! j = Some nm ->
      varMap_ base_stage !! nm = Some v ->
      derived_entry stage_world w' base_stage (Get nm) c' (0 + j) v.
Proof.
  split; [|split].
  - split; [reflexivity|].
    apply (proj1 (Copy_shares_or_duplicates base_stage MeshBlockData_default
                    stage_world eq_refl base_stage_valid)).
    repeat constructor. exists face_B. split; reflexivity.
  - split; [reflexivity|].
    apply (proj1 (proj2 (Copy_shares_or_duplicates plain_face_stage
                           MeshBlockData_default plain_face_world eq_refl
                           plain_face_stage_valid))).
    constructor. exists face_E. split; reflexivity.
  - apply (proj2 (proj2 (Copy_shares_or_duplicates base_stage
                           MeshBlockData_default stage_world eq_refl
                           base_stage_valid))).
    apply (bool_decide_unpack _). vm_compute. exact I.
Defined.

(** ** A requested name that the source lacks *)

(** C10, as claimed, fails: the source's back-reference to its block is
    tested before any name is looked at.  A default-constructed source has
    no block; Copy(src, {"x"}) throws the stale-reference error, whose
    message does not name "x". *)
Lemma Copy_names_stale_counterexample :
  let st := {| this := MeshBlockData_default;
               world := {| cells := ∅; faces := ∅; blocks := ∅ |} |} in
  varMap_ MeshBlockData_default !! "x" = None /\
  Copy_names MeshBlockData_default ["x"] st =
    Throws (runtime_error "Invalid pointer to MeshBlock!") st /\
  runtime_error "Invalid pointer to MeshBlock!" <>
    runtime_error ("MeshBlockData::Copy did not find " +:+ "x").
Proof.
  intros st. split; [reflexivity|]. split; [reflexivity|]. discriminate.
Qed.

(** C10, amended.  Let a requested name be absent from the source's dense
    map, the names before it being present (whatever the source's face
    map holds).  If the source's back-reference to its block has expired,
    Copy(src, names) throws "Invalid pointer to MeshBlock!" and changes
    nothing; otherwise it throws "MeshBlockData::Copy did not find <name>"
    for that name.  A name is never skipped. *)
Theorem Copy_names_missing_name (src c : MeshBlockData) (w : World)
    (pre post : list string) (name : string) :
  pointers_valid w src ->
  Forall (fun nm => is_Some (varMap_ src !! nm)) pre ->
  varMap_ src !! name = None ->
  let st := {| this := c; world := w |} in
  (expired w (pmy_block src) = true ->
   Copy_names src (pre ++ name :: post) st =
     Throws (runtime_error "Invalid pointer to MeshBlock!") st) /\
  (expired w (pmy_block src) = false ->
   exists st',
     Copy_names src (pre ++ name :: post) st =
       Throws (runtime_error ("MeshBlockData::Copy did not find " +:+ name))
              st').
Proof.
  intros (_ & Hmap & _) Hpre Hname st. split.
  - intros Hexp. rewrite Copy_names_unfold. apply bind_Throws.
    by apply SetBlockPointer_from_expired.
  - intros Hlive.
    destruct (SetBlockPointer_from_live src c w Hlive) as (b & Hb & Hset).
    apply Forall_exists_Forall2_l in Hpre as [vs Hvs].
    destruct (dense_loop vs (set_pmy_block (Some b) c) w)
      as (c1 & w1 & ps & Hl & _).
    { eapply Forall2_Forall_r; [exact Hvs|]. apply Forall_forall.
      intros nm _ v Hv. by eapply Hmap. }
    exists {| this := c1; world := w1 |}.
    rewrite Copy_names_unfold, (bind_Returns _ _ _ _ _ Hset), foreach_app.
    rewrite (bind_Returns _ _ _ tt {| this := c1; world := w1 |})
      by (by rewrite (names_loop _ _ _ Hvs)).
    simpl. apply bind_Throws. by apply copy_name_missing.
Qed.

Lemma Copy_names_missing_name_witness :
  varMap_ base_stage !! "B" = None /\
  faceMap_ base_stage !! "B" = Some 1%positive /\
  expired stage_world (pmy_block base_stage) = false /\
  exists st',
    Copy_names base_stage (["rho"; "p"] ++ "B" :: ["rho"])
      {| this := MeshBlockData_default; world := stage_world |} =
      Throws (runtime_error ("MeshBlockData::Copy did not find " +:+ "B")) st'.
Proof.
  assert (Hn : varMap_ base_stage !! "B" = None) by reflexivity.
  split; [exact Hn|]. split; [reflexivity|]. split; [reflexivity|].
  assert (Hpre : Forall (fun nm => is_Some (varMap_ base_stage !! nm))
                   ["rho"; "p"]).
  { apply (bool_decide_unpack _). vm_compute. exact I. }
  apply (proj2 (Copy_names_missing_name base_stage MeshBlockData_default
                  stage_world ["rho"; "p"] ["rho"] "B" base_stage_valid
                  Hpre Hn)).
  reflexivity.
Defined.

(** ** The results of the communication routines *)

(** C7, as claimed, fails: SetupPersistentMPI is declared [void]; the only
    value it can hand back is the unit. *)
Lemma SetupPersistentMPI_counterexample :
  declared_result SetupPersistentMPI <> TaskStatus_t /\
  forall x y : result (declared_result SetupPersistentMPI), x = y.
Proof. split; [discriminate|]. by intros [] []. Qed.

(** C7, amended.  SetBoundaries, SendBoundaryBuffers,
    ReceiveAndSetBoundariesWithWait, ReceiveBoundaryBuffers, StartReceiving,
    ClearBoundary, SendFluxCorrection and ReceiveFluxCorrection are
    declared to return a TaskStatus, one of three values;
    SetupPersistentMPI, ResetBoundaryCellVariables, RestrictBoundaries and
    ProlongateBoundaries are declared void and hand nothing back. *)
Theorem comm_routine_results (r : CommRoutine) :
  (declared_result r = TaskStatus_t <-> r ∈ status_routines) /\
  (declared_result r = void <-> r ∈ void_routines) /\
  forall x : result (declared_result r), possible_result (declared_result r) x.
Proof.
  split; [|split].
  - split.
    + intros H. apply (bool_decide_unpack _). by destruct r.
    + intros H%(bool_decide_pack _). by destruct r.
  - split.
    + intros H. apply (bool_decide_unpack _). by destruct r.
    + intros H%(bool_decide_pack _). by destruct r.
  - destruct r; simpl; intros []; auto.
Qed.

(** ** The pack overloads *)

(** C8.  Of the seven overloads without a sparse-id list, four are the
    canonical overload at the empty sparse-id list: the flux pack by
    variable and flux names (line 287) and by flags (line 315), and the
    variable pack by names (line 337) and by flags (line 348); so is the
    flux pack by names and sparse ids (line 295) the canonical one at the
    names given twice.  The other three have no result: the call in the
    body is ambiguous, for [{}] initialises a vector of names, of flags and
    of ids alike.  At line 305 the candidates are the declarations of lines
    287 and 295, at line 329 those of lines 302, 315 and 322, at line 360
    those of lines 337, 348 and 355.  The two candidates of line 305 differ:
    one packs with no flux names, the other with the names as flux names. *)
Theorem pack_overload_calls {Σ VariableFluxPack VariablePack : Type}
    (by_names_fluxes_ids :
       list string -> list string -> list Z -> out_ptr -> out_ptr ->
       M Σ VariableFluxPack)
    (by_flags_ids_flux :
       list MetadataFlag -> list Z -> out_ptr -> out_ptr ->
       M Σ VariableFluxPack)
    (by_ids_flux : list Z -> out_ptr -> out_ptr -> M Σ VariableFluxPack)
    (by_names_ids :
       list string -> list Z -> bool -> out_ptr -> out_ptr -> M Σ VariablePack)
    (by_flags_ids :
       list MetadataFlag -> list Z -> bool -> out_ptr -> out_ptr ->
       M Σ VariablePack)
    (by_ids : list Z -> bool -> out_ptr -> out_ptr -> M Σ VariablePack)
    (fuel : nat) :
  let flux :=
    PackVariablesAndFluxes by_names_fluxes_ids by_flags_ids_flux by_ids_flux
      (S (S fuel)) in
  let pack := PackVariables by_names_ids by_flags_ids by_ids (S (S fuel)) in
  (forall var_names flx_names vmap_out keys_out,
     flux flux_287 [names_v var_names; names_v flx_names;
                    vmap_v vmap_out; keys_v keys_out] =
       runs (by_names_fluxes_ids var_names flx_names [] vmap_out keys_out)) /\
  (forall names sparse_ids vmap_out keys_out,
     flux flux_295 [names_v names; ids_v sparse_ids;
                    vmap_v vmap_out; keys_v keys_out] =
       runs (by_names_fluxes_ids names names sparse_ids vmap_out keys_out)) /\
  (forall flags vmap_out keys_out,
     flux flux_315 [flags_v flags; vmap_v vmap_out; keys_v keys_out] =
       runs (by_flags_ids_flux flags [] vmap_out keys_out)) /\
  (forall names coarse vmap_out key_out,
     pack pack_337 [names_v names; bool_v coarse;
                    vmap_v vmap_out; key_v key_out] =
       runs (by_names_ids names [] coarse vmap_out key_out)) /\
  (forall flags coarse vmap_out key_out,
     pack pack_348 [flags_v flags; bool_v coarse;
                    vmap_v vmap_out; key_v key_out] =
       runs (by_flags_ids flags [] coarse vmap_out key_out)) /\
  (forall names vmap_out keys_out,
     flux flux_302 [names_v names; vmap_v vmap_out; keys_v keys_out] =
       ill_formed (ambiguous [flux_287; flux_295])) /\
  (forall vmap_out keys_out,
     flux flux_327 [vmap_v vmap_out; keys_v keys_out] =
       ill_formed (ambiguous [flux_302; flux_315; flux_322])) /\
  (forall coarse vmap_out key_out,
     pack pack_358 [bool_v coarse; vmap_v vmap_out; key_v key_out] =
       ill_formed (ambiguous [pack_337; pack_348; pack_355])) /\
  (forall names vmap_out keys_out,
     let args := [names_v names; braces; vmap_v vmap_out; keys_v keys_out] in
     flux flux_287 (bind_parameters (params flux_287) args) =
       runs (by_names_fluxes_ids names [] [] vmap_out keys_out) /\
     flux flux_295 (bind_parameters (params flux_295) args) =
       runs (by_names_fluxes_ids names names [] vmap_out keys_out)).
Proof.
  intros flux pack. unfold flux, pack. split_and!; intros; try split;
    reflexivity.
Qed.

(** * Further properties of the code *)

(** ** The queries change nothing *)

Lemma pure_query_Get_index i : pure_query (Get_index i).
Proof.
  intros st. unfold Get_index. munfold.
  destruct (i <? 0)%Z; [done|]. by destruct (_ !! _).
Qed.

Lemma pure_query_Index_from l vec : forall i, pure_query (Index_from l i vec).
Proof.
  induction vec as [|p vec IH]; intros i; simpl; [by intros st|].
  apply pure_query_bind; [auto with mquery|]. intros v.
  destruct (bool_decide (label v = l)); [auto with mquery|].
  destruct (bool_decide (i = INT_MAX)); [auto with mquery | apply IH].
Qed.

Lemma pure_query_Index l : pure_query (Index l).
Proof.
  apply pure_query_bind; [auto with mquery|]. intros c.
  apply pure_query_Index_from.
Qed.

Lemma pure_query_IsAllocated l : pure_query (IsAllocated l).
Proof.
  apply pure_query_bind; [auto with mquery|]. intros c.
  destruct (varMap_ c !! l); [|auto with mquery].
  apply pure_query_bind; auto with mquery.
Qed.

Lemma pure_query_GetFace l : pure_query (GetFace l).
Proof.
  intros st. unfold GetFace. munfold. by destruct (_ !! _).
Qed.

Lemma pure_query_Contains name : pure_query (Contains name).
Proof.
  intros st. unfold Contains. munfold.
  destruct (bool_decide _); [done|]. by destruct (bool_decide _).
Qed.

Lemma pure_query_Contains_all names : pure_query (Contains_all names).
Proof.
  induction names as [|name names IH]; simpl; [by intros st|].
  apply pure_query_bind; [apply pure_query_Contains|]. intros b.
  destruct (negb b); [auto with mquery | apply IH].
Qed.

Lemma pure_query_GetBounds (f : IndexShape -> IndexDomain -> IndexRange) d :
  pure_query (b ← GetBlockPointer; blk ← deref_block b;
              mret (f (cellbounds blk) d)).
Proof.
  apply pure_query_bind; [auto with mquery|]. intros b.
  apply pure_query_bind; auto with mquery.
Qed.

(** X1.  The queries of the container leave the container and the world as
    they were, whether they return or throw: HasCellVariable, GetCellVarPtr,
    Get by label and by index, Index, IsAllocated, GetFace, GetEdge,
    Contains for a name and for a list of names, Size, the getters of the
    sequences and maps, GetBlockPointer, GetParentPointer and
    GetBoundsI/J/K. *)
Theorem queries_change_nothing :
  (forall l, pure_query (HasCellVariable l)) /\
  (forall l, pure_query (GetCellVarPtr l)) /\
  (forall l, pure_query (Get l)) /\
  (forall i, pure_query (Get_index i)) /\
  (forall l, pure_query (Index l)) /\
  (forall l, pure_query (IsAllocated l)) /\
  (forall l, pure_query (GetFace l)) /\
  (forall l, pure_query (GetEdge l)) /\
  (forall name, pure_query (Contains name)) /\
  (forall names, pure_query (Contains_all names)) /\
  pure_query Size /\
  pure_query GetCellVariableVector /\ pure_query GetCellVariableMap /\
  pure_query GetFaceVector /\ pure_query GetFaceMap /\
  pure_query GetBlockPointer /\ pure_query GetParentPointer /\
  (forall d, pure_query (GetBoundsI d)) /\
  (forall d, pure_query (GetBoundsJ d)) /\
  (forall d, pure_query (GetBoundsK d)).
Proof.
  split_and!.
  - apply pure_query_HasCellVariable.
  - apply pure_query_GetCellVarPtr.
  - intros l. apply pure_query_GetCellVarPtr.
  - apply pure_query_Get_index.
  - apply pure_query_Index.
  - apply pure_query_IsAllocated.
  - apply pure_query_GetFace.
  - by intros l st.
  - apply pure_query_Contains.
  - apply pure_query_Contains_all.
  - by intros st.
  - by intros st.
  - by intros st.
  - by intros st.
  - by intros st.
  - apply pure_query_GetBlockPointer.
  - apply pure_query_GetBlockPointer.
  - apply (pure_query_GetBounds IndexShape_GetBoundsI).
  - apply (pure_query_GetBounds IndexShape_GetBoundsJ).
  - apply (pure_query_GetBounds IndexShape_GetBoundsK).
Qed.

(** ** Lookup by position and by name *)

Lemma reachable_pointers_valid st :
  reachable st ->
  pointers_valid (world st) (this st) /\
  map_Forall (fun _ f => is_Some (faces (world st) !! f)) (faceMap_ (this st)).
Proof.
  intros Hr. pose proof (reachable_state_folded st Hr) as [[Hv _] [Hfv _]].
  apply reachable_state_inv in Hr as [[_ Hd] [_ Hf]].
  assert (Hc : forall p, is_Some (label_at (world st) p) ->
                         is_Some (cells (world st) !! p)).
  { intros p [l Hl]. unfold label_at in Hl.
    destruct (cells (world st) !! p); [eauto | done]. }
  assert (Hfc : forall p, is_Some (flabel_at (world st) p) ->
                          is_Some (faces (world st) !! p)).
  { intros p [l Hl]. unfold flabel_at in Hl.
    destruct (faces (world st) !! p); [eauto | done]. }
  split; [split; [|split]|].
  - eapply Forall_impl; [exact Hv | exact Hc].
  - intros l p Hp. destruct (Hd l p Hp) as [_ Hl]. apply Hc. eauto.
  - eapply Forall_impl; [exact Hfv | exact Hfc].
  - intros l p Hp. destruct (Hf l p Hp) as [_ Hl]. apply Hfc. eauto.
Qed.

Lemma Index_from_spec l vec : forall i c w,
  Forall (fun p => is_Some (cells w !! p)) vec ->
  (i + Z.of_nat (length vec) <= INT_MAX)%Z ->
  exists r,
    Index_from l i vec {| this := c; world := w |} =
      Returns r {| this := c; world := w |} /\
    ((r = (-1)%Z /\ Forall (fun p => label_at w p <> Some l) vec) \/
     (exists k p, r = (i + Z.of_nat k)%Z /\
                  first_labelled (label_at w) vec l k p)).
Proof.
  induction vec as [|p vec IH]; intros i c w Hvalid Hlen.
  - exists (-1)%Z. split; [done|]. left. by split.
  - apply Forall_cons in Hvalid as [[v Hv] Hvalid]. simpl in Hlen.
    assert (Hlab : label_at w p = Some (label v))
      by (unfold label_at; by rewrite Hv).
    simpl. unfold deref_cell. munfold. simpl. rewrite Hv.
    destruct (decide (label v = l)) as [Heq|Hne].
    + rewrite bool_decide_eq_true_2 by done. exists i. split; [done|].
      right. exists 0, p. split; [lia|]. split; [done|].
      split; [congruence|]. intros j q Hj. lia.
    + rewrite bool_decide_eq_false_2 by done.
      rewrite bool_decide_eq_false_2 by lia.
      destruct (IH (i + 1)%Z c w Hvalid) as (r & Hr & Hcase); [lia|].
      exists r. split; [done|].
      destruct Hcase as [[-> Hall]|(k & q & -> & Hq & Hql & Hbefore)].
      * left. split; [done|]. constructor; [congruence | done].
      * right. exists (S k), q. split; [lia|]. split; [done|].
        split; [done|]. intros [|j] y Hj Hy; simpl in Hy.
        -- injection Hy as <-. congruence.
        -- apply (Hbefore j y); [lia | done].
Qed.

Lemma Index_first c w l :
  Forall (fun p => is_Some (cells w !! p)) (varVector_ c) ->
  (Z.of_nat (length (varVector_ c)) <= INT_MAX)%Z ->
  exists r,
    Index l {| this := c; world := w |} =
      Returns r {| this := c; world := w |} /\
    ((r = (-1)%Z /\
      Forall (fun p => label_at w p <> Some l) (varVector_ c)) \/
     (exists k p,
        r = Z.of_nat k /\ k < length (varVector_ c) /\
        first_labelled (label_at w) (varVector_ c) l k p /\
        Get_index r {| this := c; world := w |} =
          Returns p {| this := c; world := w |})).
Proof.
  intros Hvalid Hlen.
  destruct (Index_from_spec l (varVector_ c) 0%Z c w Hvalid) as (r & Hr & H);
    [lia|].
  exists r. split; [exact Hr|].
  destruct H as [H|(k & p & -> & Hf)]; [by left|].
  right. exists k, p. split; [lia|].
  pose proof Hf as (Hk & _). split; [by eapply lookup_lt_Some|].
  split; [done|]. rewrite Z.add_0_l. by apply Get_index_yields.
Qed.

(** X2.  Index(label), on a container whose records are alive and number at
    most [INT_MAX], returns -1 exactly when no record of the sequence has
    the label; otherwise it returns the position of the first record with
    the label, a position below the size at which Get(index) finds that
    record. *)
Theorem Index_finds_first (c : MeshBlockData) (w : World) (l : string) :
  Forall (fun p => is_Some (cells w !! p)) (varVector_ c) ->
  (Z.of_nat (length (varVector_ c)) <= INT_MAX)%Z ->
  let st := {| this := c; world := w |} in
  exists r,
    Index l st = Returns r st /\
    ((r = (-1)%Z /\
      Forall (fun p => label_at w p <> Some l) (varVector_ c)) \/
     (exists k p,
        r = Z.of_nat k /\ k < length (varVector_ c) /\
        first_labelled (label_at w) (varVector_ c) l k p /\
        Get_index r st = Returns p st)).
Proof.
  intros Hvalid Hlen st. exact (Index_first c w l Hvalid Hlen).
Qed.

Lemma Index_finds_first_witness :
  exists r,
    Index "p" {| this := base_stage; world := stage_world |} =
      Returns r {| this := base_stage; world := stage_world |} /\
    ((r = (-1)%Z /\
      Forall (fun p => label_at stage_world p <> Some "p")
             (varVector_ base_stage)) \/
     (exists k p,
        r = Z.of_nat k /\ k < length (varVector_ base_stage) /\
        first_labelled (label_at stage_world) (varVector_ base_stage) "p" k p /\
        Get_index r {| this := base_stage; world := stage_world |} =
          Returns p {| this := base_stage; world := stage_world |})).
Proof.
  apply (Index_finds_first base_stage stage_world "p").
  - apply (bool_decide_unpack _). vm_compute. exact I.
  - vm_compute. discriminate.
Defined.

Lemma map_of_lookup lab vec l p :
  map_of lab vec !! l = Some p <-> last_labelled lab vec l p.
Proof.
  revert p. induction vec as [|x vec IH] using rev_ind; intros p.
  - split; [done|]. intros (pre & post & H & _). by destruct pre.
  - unfold map_of. rewrite foldl_snoc.
    change (foldl (bind_label lab) ∅ vec) with (map_of lab vec).
    unfold bind_label.
    assert (Hother : lab x <> Some l ->
      (map_of lab vec !! l = Some p <-> last_labelled lab (vec ++ [x]) l p)).
    { intros Hx. rewrite IH. split.
      - intros (pre & post & -> & Hl & Hpost).
        exists pre, (post ++ [x])%list. split; [by rewrite <- app_assoc|].
        split; [done|]. apply Forall_app. split; [done|]. by constructor.
      - intros (pre & post & Heq & Hl & Hpost).
        destruct post as [|y post _] using rev_ind.
        + apply app_inj_tail in Heq as [_ ->]. congruence.
        + rewrite app_comm_cons, app_assoc in Heq.
          apply app_inj_tail in Heq as [-> ->].
          exists pre, post. split; [done|]. split; [done|].
          by apply Forall_app in Hpost as [? _]. }
    destruct (lab x) as [l'|] eqn:Hx; [|by apply Hother].
    destruct (decide (l' = l)) as [->|Hne];
      [|rewrite lookup_insert_ne by done; apply Hother; congruence].
    rewrite lookup_insert_eq. split.
    + intros [= <-]. exists vec, []. by repeat split.
    + intros (pre & post & Heq & Hl & Hpost).
      destruct post as [|y post _] using rev_ind.
      * by apply app_inj_tail in Heq as [_ ->].
      * rewrite app_comm_cons, app_assoc in Heq.
        apply app_inj_tail in Heq as [_ ->].
        apply Forall_app in Hpost as [_ Hy]. apply Forall_inv in Hy.
        congruence.
Qed.

Lemma Get_unfold st l :
  Get l st =
    match varMap_ (this st) !! l with
    | Some p => Returns p st
    | None =>
        Throws (runtime_error (nl +:+ l +:+ " array not found in Get()" +:+ nl))
               st
    end.
Proof. unfold Get, GetCellVarPtr. munfold. by destruct (_ !! _). Qed.

Lemma HasCellVariable_unfold st l :
  HasCellVariable l st =
    Returns (bool_decide (is_Some (varMap_ (this st) !! l))) st.
Proof. reflexivity. Qed.

(** X3.  In every reachable state whose sequence has at most [INT_MAX]
    records, the sequence and the map agree on which labels are present:
    Index(label) returns a position (not -1) exactly when
    HasCellVariable(label) is true. *)
Theorem Index_agrees_with_HasCellVariable (st : State) (l : string) :
  reachable st ->
  (Z.of_nat (length (varVector_ (this st))) <= INT_MAX)%Z ->
  exists r,
    Index l st = Returns r st /\ (r = (-1)%Z \/ (0 <= r)%Z) /\
    HasCellVariable l st = Returns (bool_decide (0 <= r)%Z) st.
Proof.
  intros Hr Hlen. destruct st as [c w]. simpl in *.
  pose proof (reachable_pointers_valid _ Hr) as [(Hvalid & _ & _) _].
  apply reachable_state_inv in Hr as [[Hvec Hmap] _]. simpl in *.
  destruct (Index_first c w l Hvalid Hlen) as (r & Hr & Hcase).
  exists r. split; [exact Hr|]. rewrite HasCellVariable_unfold. simpl.
  destruct Hcase as [[-> Hnone]|(k & p & -> & _ & (Hk & Hl & _) & _)].
  - split; [by left|]. f_equal.
    rewrite (bool_decide_eq_false_2 (0 <= -1)%Z) by lia.
    apply bool_decide_eq_false_2.
    intros [p Hp]. destruct (Hmap l p Hp) as [Hin Hl].
    rewrite Forall_forall in Hnone. by apply (Hnone p).
  - split; [right; lia|]. f_equal.
    rewrite (bool_decide_eq_true_2 (0 <= Z.of_nat k)%Z) by lia.
    apply bool_decide_eq_true_2.
    destruct (Hvec p) as (l' & Hl' & Hsome);
      [by eapply list_elem_of_lookup_2|].
    congruence.
Qed.

Lemma Index_agrees_with_HasCellVariable_witness :
  exists r,
    Index "rho" {| this := holds_two_rho; world := two_rho |} =
      Returns r {| this := holds_two_rho; world := two_rho |} /\
    (r = (-1)%Z \/ (0 <= r)%Z) /\
    HasCellVariable "rho" {| this := holds_two_rho; world := two_rho |} =
      Returns (bool_decide (0 <= r)%Z)
              {| this := holds_two_rho; world := two_rho |}.
Proof.
  apply (Index_agrees_with_HasCellVariable
           {| this := holds_two_rho; world := two_rho |} "rho"
           holds_two_rho_reachable).
  vm_compute. discriminate.
Defined.

Lemma Get_last_labelled st l p :
  reachable st ->
  Get l st = Returns p st <->
  last_labelled (label_at (world st)) (varVector_ (this st)) l p.
Proof.
  intros Hr. pose proof (reachable_state_folded st Hr) as [[_ Hm] _].
  rewrite Get_unfold, <- map_of_lookup, <- Hm.
  destruct (varMap_ (this st) !! l); split; intros H; congruence.
Qed.

(** X4.  In every reachable state Get(label) returns a record exactly when
    that record is the last one of the sequence carrying the label (the one
    added last); when no record of the sequence carries the label it throws
    "<label> array not found in Get()"; it has no undefined outcome. *)
Theorem Get_finds_last_added (st : State) (l : string) :
  reachable st ->
  (forall p, Get l st = Returns p st <->
             last_labelled (label_at (world st)) (varVector_ (this st)) l p) /\
  (Forall (fun p => label_at (world st) p <> Some l) (varVector_ (this st)) ->
   Get l st =
     Throws (runtime_error (nl +:+ l +:+ " array not found in Get()" +:+ nl))
            st) /\
  Get l st <> Undefined.
Proof.
  intros Hr. pose proof (reachable_state_folded st Hr) as [[_ Hm] _].
  rewrite Get_unfold. split; [|split].
  - intros p. rewrite <- map_of_lookup, <- Hm.
    destruct (varMap_ (this st) !! l); split; intros H; congruence.
  - intros Hnone. destruct (varMap_ (this st) !! l) as [p|] eqn:E; [|done].
    rewrite Hm in E. apply map_of_lookup in E as (pre & post & Hv & Hl & _).
    rewrite Forall_forall in Hnone. exfalso. apply (Hnone p); [|done].
    rewrite Hv. apply elem_of_app. right. by left.
  - by destruct (varMap_ (this st) !! l).
Qed.

Lemma Get_finds_last_added_witness :
  (forall p,
     Get "rho" {| this := holds_two_rho; world := two_rho |} =
       Returns p {| this := holds_two_rho; world := two_rho |} <->
     last_labelled (label_at two_rho) [1%positive; 2%positive] "rho" p) /\
  Get "rho" {| this := holds_two_rho; world := two_rho |} =
    Returns 2%positive {| this := holds_two_rho; world := two_rho |}.
Proof.
  split; [|reflexivity].
  apply (proj1 (Get_finds_last_added
                  {| this := holds_two_rho; world := two_rho |} "rho"
                  holds_two_rho_reachable)).
Defined.

(** X5.  In a reachable state in which no two records of the sequence carry
    the same label (and there are at most [INT_MAX] records), lookup by
    name and lookup by the position that Index reports give the same
    record: if Get(label) returns p, Index(label) returns a position i and
    Get(i) returns p. *)
Theorem Get_at_Index_is_Get (st : State) (l : string) (p : loc) :
  reachable st ->
  NoDup (label_at (world st) <$> varVector_ (this st)) ->
  (Z.of_nat (length (varVector_ (this st))) <= INT_MAX)%Z ->
  Get l st = Returns p st ->
  exists i, Index l st = Returns i st /\ Get_index i st = Returns p st.
Proof.
  intros Hr Hnd Hlen Hget.
  apply (Get_last_labelled st l p Hr) in Hget
    as (pre & post & Hv & Hl & _).
  pose proof (reachable_pointers_valid _ Hr) as [(Hvalid & _ & _) _].
  destruct st as [c w]. simpl in *.
  destruct (Index_first c w l Hvalid Hlen) as (r & Hi & Hcase).
  exists r. split; [exact Hi|].
  assert (Hin : p ∈ varVector_ c).
  { rewrite Hv. apply elem_of_app. right. by left. }
  destruct Hcase as [[_ Hnone]|(k & q & -> & _ & (Hk & Hql & _) & Hgi)].
  - rewrite Forall_forall in Hnone. by destruct (Hnone p Hin).
  - assert (q = p) as ->; [|done].
    apply (NoDup_fmap_elem_inj (label_at w) (varVector_ c)); try done;
      [by eapply list_elem_of_lookup_2 | congruence].
Qed.

Lemma base_stage_reachable :
  reachable {| this := base_stage; world := stage_world |}.
Proof.
  eapply (reachable_step _ _ (OpAdd_face 1%positive)).
  - eapply (reachable_step _ _ (OpAdd 2%positive)).
    + eapply (reachable_step _ _ (OpAdd 1%positive)).
      * eapply (reachable_step _ _ (OpSetBlockPointer (Some 5%positive))).
        -- apply (reachable_default stage_world).
        -- reflexivity.
      * simpl. rewrite (Add_Returns _ _ _ rho_a); reflexivity.
    + simpl. rewrite (Add_Returns _ _ _ pressure); reflexivity.
  - simpl. rewrite (Add_face_Returns _ _ _ face_B); reflexivity.
Qed.

Lemma Get_at_Index_is_Get_witness :
  exists i,
    Index "p" {| this := base_stage; world := stage_world |} =
      Returns i {| this := base_stage; world := stage_world |} /\
    Get_index i {| this := base_stage; world := stage_world |} =
      Returns 2%positive {| this := base_stage; world := stage_world |}.
Proof.
  apply (Get_at_Index_is_Get {| this := base_stage; world := stage_world |}
           "p" 2%positive base_stage_reachable).
  - apply (bool_decide_unpack _). vm_compute. exact I.
  - vm_compute. discriminate.
  - reflexivity.
Defined.

(** ** Allocation state *)

Lemma IsAllocated_unfold c w l :
  IsAllocated l {| this := c; world := w |} =
    match varMap_ c !! l with
    | None => Returns false {| this := c; world := w |}
    | Some p =>
        match cells w !! p with
        | Some v => Returns (is_allocated_ v) {| this := c; world := w |}
        | None => Undefined
        end
    end.
Proof.
  unfold IsAllocated. munfold. simpl. destruct (varMap_ c !! l); [|done].
  simpl. by destruct (cells w !! _).
Qed.

(** X6.  In every reachable state IsAllocated(label) returns, and never
    throws: false when the label is not among the dense variables, and
    otherwise the allocation state of the record that Get(label) returns.
    So IsAllocated(label) is true only if HasCellVariable(label) is. *)
Theorem IsAllocated_never_throws (st : State) (l : string) :
  reachable st ->
  exists b,
    IsAllocated l st = Returns b st /\
    (HasCellVariable l st = Returns false st -> b = false) /\
    (forall p v, Get l st = Returns p st -> cells (world st) !! p = Some v ->
                 b = is_allocated_ v) /\
    (b = true -> HasCellVariable l st = Returns true st).
Proof.
  intros Hr. pose proof (reachable_pointers_valid _ Hr) as [(_ & Hmap & _) _].
  destruct st as [c w]. simpl in *.
  rewrite IsAllocated_unfold, HasCellVariable_unfold, Get_unfold. simpl.
  destruct (varMap_ c !! l) as [p|] eqn:E.
  - destruct (Hmap l p E) as [v Hv]. rewrite Hv.
    exists (is_allocated_ v). split; [done|]. split.
    + intros H. injection H as H. discriminate H.
    + split; [intros q v' [= <-] Hq; congruence|].
      by intros _.
  - exists false. split; [done|]. split; [done|]. split; [|done].
    intros q v' H. discriminate H.
Qed.

Lemma IsAllocated_never_throws_witness :
  exists b,
    IsAllocated "B" {| this := base_stage; world := stage_world |} =
      Returns b {| this := base_stage; world := stage_world |} /\
    b = false.
Proof.
  destruct (IsAllocated_never_throws
              {| this := base_stage; world := stage_world |} "B"
              base_stage_reachable) as (b & Hb & Hfalse & _).
  exists b. split; [exact Hb|]. apply Hfalse. reflexivity.
Defined.





(** ** Contains and equality *)

Lemma Contains_unfold c w name :
  Contains name {| this := c; world := w |} =
    Returns (bool_decide (name ∈ label_set c)) {| this := c; world := w |}.
Proof.
  unfold Contains, label_set. munfold. simpl.
  destruct (decide (is_Some (varMap_ c !! name))) as [Hv|Hv].
  - rewrite (bool_decide_eq_true_2 _ Hv). f_equal. symmetry.
    apply bool_decide_eq_true_2. apply elem_of_union. left.
    by apply elem_of_dom.
  - rewrite (bool_decide_eq_false_2 _ Hv).
    destruct (decide (is_Some (faceMap_ c !! name))) as [Hf|Hf].
    + rewrite (bool_decide_eq_true_2 _ Hf). f_equal. symmetry.
      apply bool_decide_eq_true_2. apply elem_of_union. right.
      by apply elem_of_dom.
    + rewrite (bool_decide_eq_false_2 _ Hf). f_equal. symmetry.
      apply bool_decide_eq_false_2.
      intros [H|H]%elem_of_union; apply elem_of_dom in H; tauto.
Qed.

Lemma Contains_all_unfold c w names :
  Contains_all names {| this := c; world := w |} =
    Returns (bool_decide (Forall (fun name => name ∈ label_set c) names))
            {| this := c; world := w |}.
Proof.
  induction names as [|name names IH].
  - reflexivity.
  - cbn [Contains_all].
    rewrite (bind_Returns _ _ _ _ _ (Contains_unfold c w name)).
    destruct (decide (name ∈ label_set c)) as [Hn|Hn].
    + rewrite (bool_decide_eq_true_2 _ Hn). simpl. rewrite IH. f_equal.
      apply bool_decide_ext. rewrite Forall_cons. tauto.
    + rewrite (bool_decide_eq_false_2 _ Hn). simpl. f_equal. symmetry.
      apply bool_decide_eq_false_2. by intros [? _]%Forall_cons.
Qed.

(** X8.  Contains(name) is true exactly when the name is a dense label or a
    face label; Contains(names) is true exactly when every name of the list
    is, so it is true for the empty list; a label held only by a face
    variable is contained though HasCellVariable denies it. *)
Theorem Contains_spec (c : MeshBlockData) (w : World) :
  let st := {| this := c; world := w |} in
  (forall name,
     Contains name st =
       Returns (bool_decide (is_Some (varMap_ c !! name) \/
                             is_Some (faceMap_ c !! name))) st) /\
  (forall names,
     Contains_all names st =
       Returns (bool_decide
                  (Forall (fun name => is_Some (varMap_ c !! name) \/
                                       is_Some (faceMap_ c !! name))
                          names)) st) /\
  Contains_all [] st = Returns true st /\
  (forall name, varMap_ c !! name = None -> is_Some (faceMap_ c !! name) ->
     Contains name st = Returns true st /\
     HasCellVariable name st = Returns false st).
Proof.
  intros st.
  assert (Hset : forall name, name ∈ label_set c <->
            is_Some (varMap_ c !! name) \/ is_Some (faceMap_ c !! name)).
  { intros name. unfold label_set. by rewrite elem_of_union, !elem_of_dom. }
  split_and!.
  - intros name. unfold st. rewrite Contains_unfold. f_equal.
    apply bool_decide_ext, Hset.
  - intros names. unfold st. rewrite Contains_all_unfold. f_equal.
    apply bool_decide_ext. rewrite !Forall_forall.
    split; intros H name Hin; apply Hset; by apply H.
  - reflexivity.
  - intros name Hv Hf. split.
    + unfold st. rewrite Contains_unfold. f_equal.
      apply bool_decide_eq_true_2, Hset. by right.
    + rewrite HasCellVariable_unfold. simpl. by rewrite Hv.
Qed.

Lemma Contains_spec_witness :
  Contains "b" {| this := dense_a_face_b; world := two_rho |} =
    Returns true {| this := dense_a_face_b; world := two_rho |} /\
  HasCellVariable "b" {| this := dense_a_face_b; world := two_rho |} =
    Returns false {| this := dense_a_face_b; world := two_rho |}.
Proof.
  destruct (Contains_spec dense_a_face_b two_rho) as (_ & _ & _ & H).
  apply (H "b"); [reflexivity|]. by exists 1%positive.
Defined.

(** X9.  The equality operator is an equivalence of containers: every
    container equals itself, [a == b] and [b == a] agree, and from [a == b]
    and [b == c] follows [a == c]. *)
Theorem operator_eq_equivalence (a b c : MeshBlockData) :
  operator_eq a a = true /\
  operator_eq a b = operator_eq b a /\
  (operator_eq a b = true -> operator_eq b c = true ->
   operator_eq a c = true).
Proof.
  unfold operator_eq. split_and!.
  - by apply bool_decide_eq_true_2.
  - apply bool_decide_ext. split; congruence.
  - rewrite !bool_decide_eq_true. congruence.
Qed.

Lemma operator_eq_equivalence_witness :
  operator_eq holds_rho_a same_names_other_records = true /\
  operator_eq same_names_other_records holds_two_rho = true /\
  operator_eq holds_rho_a holds_two_rho = true.
Proof.
  assert (H1 : operator_eq holds_rho_a same_names_other_records = true)
    by (vm_compute; reflexivity).
  assert (H2 : operator_eq same_names_other_records holds_two_rho = true)
    by (vm_compute; reflexivity).
  split; [exact H1|]. split; [exact H2|].
  destruct (operator_eq_equivalence holds_rho_a same_names_other_records
              holds_two_rho) as (_ & _ & Htrans).
  exact (Htrans H1 H2).
Defined.

Lemma operator_eq_label_set a b :
  operator_eq a b = true -> label_set a = label_set b.
Proof.
  unfold operator_eq. rewrite bool_decide_eq_true. intros H.
  unfold label_set. apply set_eq. intros k.
  rewrite !elem_of_union, <- !elem_of_std_map_keys, <- !elem_of_app.
  by rewrite H.
Qed.

(** X10.  Containers that compare equal contain the same names: if
    [a == b] then Contains gives the same answer on a and on b, for every
    name and for every list of names. *)
Theorem equal_containers_contain_the_same (a b : MeshBlockData)
    (wa wb : World) :
  operator_eq a b = true ->
  (forall name,
     returned (Contains name {| this := a; world := wa |}) =
     returned (Contains name {| this := b; world := wb |})) /\
  (forall names,
     returned (Contains_all names {| this := a; world := wa |}) =
     returned (Contains_all names {| this := b; world := wb |})).
Proof.
  intros Heq%operator_eq_label_set. split.
  - intros name. rewrite !Contains_unfold. simpl. by rewrite Heq.
  - intros names. rewrite !Contains_all_unfold. simpl. by rewrite Heq.
Qed.

Lemma equal_containers_contain_the_same_witness :
  operator_eq holds_rho_a same_names_other_records = true /\
  returned (Contains_all ["rho"]
              {| this := holds_rho_a; world := two_rho |}) =
  returned (Contains_all ["rho"]
              {| this := same_names_other_records; world := two_rho |}).
Proof.
  assert (H : operator_eq holds_rho_a same_names_other_records = true)
    by (vm_compute; reflexivity).
  split; [exact H|].
  apply (proj2 (equal_containers_contain_the_same holds_rho_a
                  same_names_other_records two_rho two_rho H)).
Defined.

(** ** Deriving, then comparing and looking up *)

Lemma exec_labels_le op st st' :
  after (exec op st) = Some st' -> labels_le (world st) (world st').
Proof.
  apply (preserves_after (fun s => labels_le (world st) (world s)));
    [|apply labels_le_refl].
  apply (struct_exec _ (fun _ => True)).
  - intros v _ [c w] H. destruct (cells w !! v) as [r|] eqn:E.
    + by rewrite (Add_Returns _ _ _ _ E).
    + by rewrite (Add_dangling _ _ _ E).
  - intros v _ [c w] H. destruct (cells w !! v) as [r|] eqn:E.
    + rewrite (copy_then_add_Returns _ _ _ _ E). simpl in *.
      eapply labels_le_trans; [exact H | apply labels_le_fresh_cell].
    + by rewrite (copy_then_add_dangling _ _ _ E).
  - intros v [c w] H. destruct (faces w !! v) as [r|] eqn:E.
    + by rewrite (Add_face_Returns _ _ _ _ E).
    + by rewrite (Add_face_dangling _ _ _ E).
  - by intros p [c w] H.
  - intros v pmb [c w] H. unfold Allocate. munfold. simpl in *.
    destruct (cells w !! v); [|done]. simpl.
    eapply labels_le_trans; [exact H | apply labels_le_Allocate].
  - intros b dt [c w] H. simpl in *.
    eapply labels_le_trans; [exact H | apply labels_le_blocks].
  - by destruct op.
Qed.

Lemma elem_of_dom_map_of lab vec l :
  l ∈ dom (map_of lab vec) <-> exists p, p ∈ vec /\ lab p = Some l.
Proof.
  induction vec as [|x vec IH] using rev_ind.
  - unfold map_of. simpl. rewrite dom_empty_L. split; [set_solver|].
    intros (p & Hp & _). by apply elem_of_nil in Hp.
  - unfold map_of. rewrite foldl_snoc.
    change (foldl (bind_label lab) ∅ vec) with (map_of lab vec).
    unfold bind_label. destruct (lab x) as [l'|] eqn:Hx.
    + rewrite dom_insert_L, elem_of_union, elem_of_singleton, IH. split.
      * intros [->|(p & Hp & Hl)].
        -- exists x. split; [|done]. apply elem_of_app. right. by left.
        -- exists p. split; [|done]. apply elem_of_app. by left.
      * intros (p & [Hp|Hp%list_elem_of_singleton]%elem_of_app & Hl).
        -- right. eauto.
        -- left. subst p. congruence.
    + rewrite IH. split.
      * intros (p & Hp & Hl). exists p. split; [|done].
        apply elem_of_app. by left.
      * intros (p & [Hp|Hp%list_elem_of_singleton]%elem_of_app & Hl).
        -- eauto.
        -- subst p. congruence.
Qed.

Lemma taken_over_label w w' v p :
  cells w ⊆ cells w' -> taken_over w w' v p ->
  exists l, label_at w v = Some l /\ label_at w' p = Some l.
Proof.
  intros Hsub (r & Hr & Hp). exists (label r). unfold label_at.
  rewrite Hr. split; [done|]. destruct (IsSet r OneCopy).
  - subst p. by rewrite (lookup_weaken _ _ _ _ Hr Hsub).
  - destruct Hp as [_ ->]. done.
Qed.

Lemma taken_over_labels w w' vs ps l :
  cells w ⊆ cells w' -> Forall2 (taken_over w w') vs ps ->
  (exists v, v ∈ vs /\ label_at w v = Some l) <->
  (exists p, p ∈ ps /\ label_at w' p = Some l).
Proof.
  intros Hsub Hall. split.
  - intros (v & Hv & Hl). apply list_elem_of_lookup_1 in Hv as [i Hi].
    destruct (Forall2_lookup_l _ _ _ _ _ Hall Hi) as (p & Hp & Hto).
    exists p. split; [by eapply list_elem_of_lookup_2|].
    destruct (taken_over_label _ _ _ _ Hsub Hto) as (l' & H1 & H2).
    congruence.
  - intros (p & Hp & Hl). apply list_elem_of_lookup_1 in Hp as [i Hi].
    destruct (Forall2_lookup_r _ _ _ _ _ Hall Hi) as (v & Hv & Hto).
    exists v. split; [by eapply list_elem_of_lookup_2|].
    destruct (taken_over_label _ _ _ _ Hsub Hto) as (l' & H1 & H2).
    congruence.
Qed.

Lemma Copy_into_default src w :
  reachable {| this := src; world := w |} ->
  expired w (pmy_block src) = false ->
  Forall (fun f => exists r, faces w !! f = Some r /\
                             FaceIsSet r OneCopy = true) (faceVector_ src) ->
  exists c' w',
    Copy src {| this := MeshBlockData_default; world := w |} =
      Returns tt {| this := c'; world := w' |} /\
    Forall2 (taken_over w w') (varVector_ src) (varVector_ c') /\
    cells w ⊆ cells w' /\
    faceVector_ c' = faceVector_ src /\
    labels_le w w' /\
    state_folded {| this := c'; world := w' |}.
Proof.
  intros Hr Hlive Hone.
  pose proof (reachable_pointers_valid _ Hr) as [Hvalid _]. simpl in *.
  destruct (Copy_returns src MeshBlockData_default w Hlive Hvalid Hone)
    as (c' & w' & ps & Hc & _ & Hvec & Hall & Hsub & Hfv).
  simpl in *. subst ps.
  exists c', w'. split; [exact Hc|]. split; [done|]. split; [done|].
  split; [done|].
  assert (Ha : after (exec (OpCopy src)
                 {| this := MeshBlockData_default; world := w |}) =
               Some {| this := c'; world := w' |})
    by (simpl; by rewrite Hc).
  split; [exact (exec_labels_le _ _ _ Ha)|].
  apply (preserves_after _ _ _ _ (folded_exec (OpCopy src))
           (reachable_state_folded _ (reachable_default w)) Ha).
Qed.

(** X11.  A container derived by Copy(src) from a default-constructed one
    compares equal to its source: for a reachable source on a live block
    whose face records are all OneCopy, Copy returns and [derived == src]
    (and [src == derived]) is true. *)
Theorem Copy_gives_an_equal_container (src : MeshBlockData) (w : World) :
  reachable {| this := src; world := w |} ->
  expired w (pmy_block src) = false ->
  Forall (fun f => exists r, faces w !! f = Some r /\
                             FaceIsSet r OneCopy = true) (faceVector_ src) ->
  exists c' w',
    Copy src {| this := MeshBlockData_default; world := w |} =
      Returns tt {| this := c'; world := w' |} /\
    operator_eq c' src = true /\ operator_eq src c' = true.
Proof.
  intros Hr Hlive Hone.
  destruct (Copy_into_default src w Hr Hlive Hone)
    as (c' & w' & Hc & Hall & Hsub & Hfv & [_ Hfle] & [[_ Hm] [_ Hfm]]).
  simpl in *.
  pose proof (reachable_state_inv _ Hr) as [[Hv1 Hv2] [Hf1 Hf2]].
  pose proof (reachable_state_folded _ Hr) as [_ [Hfvalid _]].
  simpl in *.
  assert (Hdv : dom (varMap_ c') = dom (varMap_ src)).
  { apply set_eq. intros l. rewrite Hm, elem_of_dom_map_of.
    rewrite <- (taken_over_labels w w' _ _ l Hsub Hall), elem_of_dom. split.
    - intros (v & Hv & Hl). destruct (Hv1 v Hv) as (l' & Hl' & Hs).
      congruence.
    - intros [p Hp]. destruct (Hv2 l p Hp). eauto. }
  assert (Hdf : dom (faceMap_ c') = dom (faceMap_ src)).
  { apply set_eq. intros l. rewrite Hfm, Hfv, elem_of_dom_map_of, elem_of_dom.
    split.
    - intros (f & Hf & Hl). destruct (Hf1 f Hf) as (l' & Hl' & Hs).
      rewrite (Hfle _ _ Hl') in Hl. congruence.
    - intros [p Hp]. destruct (Hf2 l p Hp) as [Hin Hl]. eauto. }
  exists c', w'. split; [exact Hc|].
  unfold operator_eq.
  rewrite (std_map_keys_dom _ _ Hdv), (std_map_keys_dom _ _ Hdf).
  split; by apply bool_decide_eq_true_2.
Qed.

Lemma Copy_gives_an_equal_container_witness :
  exists c' w',
    Copy base_stage {| this := MeshBlockData_default; world := stage_world |} =
      Returns tt {| this := c'; world := w' |} /\
    operator_eq c' base_stage = true /\ operator_eq base_stage c' = true.
Proof.
  apply (Copy_gives_an_equal_container base_stage stage_world
           base_stage_reachable eq_refl).
  repeat constructor. exists face_B. split; reflexivity.
Defined.

Lemma last_labelled_transfer (lab lab' : loc -> option string)
    (R : loc -> loc -> Prop) vs ps l v :
  (forall x y, R x y -> exists k, lab x = Some k /\ lab' y = Some k) ->
  Forall2 R vs ps ->
  last_labelled lab vs l v ->
  exists p, last_labelled lab' ps l p /\ R v p.
Proof.
  intros HR Hall (pre & post & -> & Hl & Hpost).
  apply Forall2_app_inv_l in Hall as (pre' & rest & Hpre & Hrest & ->).
  apply Forall2_cons_inv_l in Hrest as (p & post' & Hvp & Hposts & ->).
  exists p. split; [|done]. exists pre', post'. split; [done|]. split.
  - destruct (HR _ _ Hvp) as (k & H1 & H2). congruence.
  - clear -HR Hposts Hpost.
    induction Hposts as [|x y xs ys Hxy _ IH]; [constructor|].
    apply Forall_cons in Hpost as [Hx Hxs]. constructor; [|by apply IH].
    destruct (HR _ _ Hxy) as (k & H1 & H2). congruence.
Qed.

Lemma Copy_lookup src w l v :
  reachable {| this := src; world := w |} ->
  expired w (pmy_block src) = false ->
  Forall (fun f => exists r, faces w !! f = Some r /\
                             FaceIsSet r OneCopy = true) (faceVector_ src) ->
  varMap_ src !! l = Some v ->
  exists c' w' p,
    Copy src {| this := MeshBlockData_default; world := w |} =
      Returns tt {| this := c'; world := w' |} /\
    varMap_ c' !! l = Some p /\ taken_over w w' v p /\ cells w ⊆ cells w'.
Proof.
  intros Hr Hlive Hone Hv.
  destruct (Copy_into_default src w Hr Hlive Hone)
    as (c' & w' & Hc & Hall & Hsub & _ & _ & [[_ Hm] _]).
  pose proof (reachable_state_folded _ Hr) as [[_ Hms] _]. simpl in *.
  rewrite Hms in Hv. apply map_of_lookup in Hv.
  destruct (last_labelled_transfer (label_at w) (label_at w')
              (taken_over w w') _ _ l v
              (fun x y => taken_over_label w w' x y Hsub) Hall Hv)
    as (p & Hp & Hto).
  exists c', w', p. split; [exact Hc|]. split; [|done].
  rewrite Hm. by apply map_of_lookup.
Qed.

(** X12.  Lookup by label commutes with Copy(src): when Get(label) on a
    reachable source (live block, face records OneCopy) returns the record
    v, then on the container derived from a default-constructed one
    Get(label) returns the record taken over from v: v itself when v is
    OneCopy, and otherwise a new object holding a duplicate of v. *)
Theorem Copy_commutes_with_Get (src : MeshBlockData) (w : World)
    (l : string) (v : loc) :
  reachable {| this := src; world := w |} ->
  expired w (pmy_block src) = false ->
  Forall (fun f => exists r, faces w !! f = Some r /\
                             FaceIsSet r OneCopy = true) (faceVector_ src) ->
  Get l {| this := src; world := w |} =
    Returns v {| this := src; world := w |} ->
  exists c' w' p,
    Copy src {| this := MeshBlockData_default; world := w |} =
      Returns tt {| this := c'; world := w' |} /\
    Get l {| this := c'; world := w' |} =
      Returns p {| this := c'; world := w' |} /\
    taken_over w w' v p.
Proof.
  intros Hr Hlive Hone Hget. rewrite Get_unfold in Hget. simpl in Hget.
  destruct (varMap_ src !! l) as [v0|] eqn:Hv; [|discriminate Hget].
  injection Hget as ->.
  destruct (Copy_lookup src w l v Hr Hlive Hone Hv)
    as (c' & w' & p & Hc & Hp & Hto & _).
  exists c', w', p. split; [exact Hc|]. split; [|done].
  rewrite Get_unfold. simpl. by rewrite Hp.
Qed.

Lemma Copy_commutes_with_Get_witness :
  exists c' w' p,
    Copy base_stage {| this := MeshBlockData_default; world := stage_world |} =
      Returns tt {| this := c'; world := w' |} /\
    Get "p" {| this := c'; world := w' |} =
      Returns p {| this := c'; world := w' |} /\
    taken_over stage_world w' 2%positive p.
Proof.
  apply (Copy_commutes_with_Get base_stage stage_world "p" 2%positive
           base_stage_reachable eq_refl).
  - repeat constructor. exists face_B. split; reflexivity.
  - reflexivity.
Defined.




(** ** What a failing Copy leaves behind *)

Lemma share_face_throws c w f r :
  faces w !! f = Some r -> FaceIsSet r OneCopy = false ->
  share_face f {| this := c; world := w |} =
    Throws (runtime_error "Non-oneCopy face variables are not yet supported")
           {| this := c; world := w |}.
Proof.
  intros Hf Hone. unfold share_face.
  rewrite (bind_Returns _ _ _ r {| this := c; world := w |});
    [|unfold deref_face; simpl; by rewrite Hf].
  by rewrite Hone.
Qed.

(** X14.  Copy(src) is not atomic.  With an expired source it throws
    "Invalid pointer to MeshBlock!" and changes nothing.  With a live source
    whose first face record that is not OneCopy stands after the face
    records [pre], it throws "Non-oneCopy face variables are not yet
    supported", and the container is left changed: it observes the source's
    block, has taken over every dense record of the source, and holds the
    face records [pre]. *)
Theorem Copy_failure_is_not_rolled_back (src c : MeshBlockData) (w : World)
    (pre post : list loc) (f : loc) (rf : FaceVariable) :
  pointers_valid w src ->
  faceVector_ src = (pre ++ f :: post)%list ->
  Forall (fun f => exists r, faces w !! f = Some r /\
                             FaceIsSet r OneCopy = true) pre ->
  faces w !! f = Some rf -> FaceIsSet rf OneCopy = false ->
  let st := {| this := c; world := w |} in
  (expired w (pmy_block src) = true ->
   Copy src st = Throws (runtime_error "Invalid pointer to MeshBlock!") st) /\
  (expired w (pmy_block src) = false ->
   exists c' w' ps,
     Copy src st =
       Throws (runtime_error
                 "Non-oneCopy face variables are not yet supported")
              {| this := c'; world := w' |} /\
     pmy_block c' = pmy_block src /\
     varVector_ c' = (varVector_ c ++ ps)%list /\
     Forall2 (taken_over w w') (varVector_ src) ps /\
     faceVector_ c' = (faceVector_ c ++ pre)%list).
Proof.
  intros (Hvec & _ & _) Hfv Hpre Hf Hone st. split.
  - intros Hexp. rewrite Copy_unfold. apply bind_Throws.
    by apply SetBlockPointer_from_expired.
  - intros Hlive.
    destruct (SetBlockPointer_from_live src c w Hlive) as (b & Hb & Hset).
    destruct (dense_loop (varVector_ src) (set_pmy_block (Some b) c) w Hvec)
      as (c1 & w1 & ps & Hl & Hv1 & Hall & _ & Hfaces & _ & Hpm & Hfv1 & _).
    destruct (face_loop_shared pre c1 w1) as (c2 & Hfl & Hfv2 & Hvv2 & _ & Hpm2).
    { by rewrite Hfaces. }
    exists c2, w1, ps. split.
    { unfold st. rewrite Copy_unfold.
      rewrite (bind_Returns _ _ _ _ _ Hset).
      rewrite (bind_Returns _ _ _ _ _ (call_on_GetCellVariableVector src _)).
      rewrite (bind_Returns _ _ _ _ _ Hl).
      rewrite (bind_Returns _ _ _ _ _ (call_on_GetFaceVector src _)).
      rewrite Hfv, foreach_app.
      rewrite (bind_Returns _ _ _ _ _ Hfl).
      simpl. apply bind_Throws. apply (share_face_throws _ _ _ rf); [|done].
      by rewrite Hfaces. }
    split. { rewrite Hpm2, Hpm. by rewrite Hb. }
    split. { by rewrite Hvv2, Hv1. }
    split; [done|]. by rewrite Hfv2, Hfv1.
Qed.

Lemma Copy_failure_is_not_rolled_back_witness :
  exists c' w' ps,
    Copy plain_face_stage
         {| this := MeshBlockData_default; world := plain_face_world |} =
      Throws (runtime_error
                "Non-oneCopy face variables are not yet supported")
             {| this := c'; world := w' |} /\
    pmy_block c' = pmy_block plain_face_stage /\
    varVector_ c' = (varVector_ MeshBlockData_default ++ ps)%list /\
    Forall2 (taken_over plain_face_world w') (varVector_ plain_face_stage) ps /\
    faceVector_ c' = (faceVector_ MeshBlockData_default ++ [])%list.
Proof.
  apply (Copy_failure_is_not_rolled_back plain_face_stage
           MeshBlockData_default plain_face_world [] [] 1%positive face_E
           plain_face_stage_valid eq_refl (Forall_nil_2 _) eq_refl eq_refl).
  reflexivity.
Defined.

(** X15.  Copy(src, names) is not atomic either.  When it throws
    "MeshBlockData::Copy did not find <name>" for a live source, the
    container observes the source's block and has taken over the records of
    all the names that stand before the missing one; the names after it
    have not been looked at. *)
Theorem Copy_names_failure_is_not_rolled_back (src c : MeshBlockData)
    (w : World) (pre post : list string) (name : string) (vs : list loc) :
  pointers_valid w src ->
  expired w (pmy_block src) = false ->
  Forall2 (fun nm v => varMap_ src !! nm = Some v) pre vs ->
  varMap_ src !! name = None ->
  exists c' w' ps,
    Copy_names src (pre ++ name :: post) {| this := c; world := w |} =
      Throws (runtime_error ("MeshBlockData::Copy did not find " +:+ name))
             {| this := c'; world := w' |} /\
    pmy_block c' = pmy_block src /\
    varVector_ c' = (varVector_ c ++ ps)%list /\
    Forall2 (taken_over w w') vs ps /\
    cells w ⊆ cells w' /\
    faceVector_ c' = faceVector_ c.
Proof.
  intros (_ & Hmap & _) Hlive Hvs Hname.
  destruct (SetBlockPointer_from_live src c w Hlive) as (b & Hb & Hset).
  destruct (dense_loop vs (set_pmy_block (Some b) c) w)
    as (c1 & w1 & ps & Hl & Hv1 & Hall & Hsub & _ & _ & Hpm & Hfv & _).
  { eapply Forall2_Forall_r; [exact Hvs|]. apply Forall_forall.
    intros nm _ v Hv. by eapply Hmap. }
  exists c1, w1, ps. split.
  { rewrite Copy_names_unfold.
    rewrite (bind_Returns _ _ _ _ _ Hset).
    rewrite foreach_app.
    rewrite (bind_Returns _ _ _ tt {| this := c1; world := w1 |});
      [|by rewrite (names_loop _ _ _ Hvs)].
    simpl. apply bind_Throws. by apply copy_name_missing. }
  split. { rewrite Hpm. by rewrite Hb. }
  done.
Qed.

Lemma Copy_names_failure_is_not_rolled_back_witness :
  exists c' w' ps,
    Copy_names base_stage ["rho"; "x"; "p"]
      {| this := MeshBlockData_default; world := stage_world |} =
      Throws (runtime_error ("MeshBlockData::Copy did not find " +:+ "x"))
             {| this := c'; world := w' |} /\
    pmy_block c' = pmy_block base_stage /\
    varVector_ c' = (varVector_ MeshBlockData_default ++ ps)%list /\
    Forall2 (taken_over stage_world w') [1%positive] ps /\
    cells stage_world ⊆ cells w' /\
    faceVector_ c' = faceVector_ MeshBlockData_default.
Proof.
  apply (Copy_names_failure_is_not_rolled_back base_stage
           MeshBlockData_default stage_world ["rho"] ["p"] "x" [1%positive]
           base_stage_valid eq_refl).
  - repeat constructor.
  - reflexivity.
Defined.

(** ** Setting and reading the block reference *)

Lemma GetBounds_live c w b blk :
  pmy_block c = Some b -> blocks w !! b = Some blk ->
  let st := {| this := c; world := w |} in
  GetBlockPointer st = Returns b st /\
  (forall d, GetBoundsI d st =
             Returns (IndexShape_GetBoundsI (cellbounds blk) d) st) /\
  (forall d, GetBoundsJ d st =
             Returns (IndexShape_GetBoundsJ (cellbounds blk) d) st) /\
  (forall d, GetBoundsK d st =
             Returns (IndexShape_GetBoundsK (cellbounds blk) d) st).
Proof.
  intros Hb Hblk st.
  assert (Hlive : expired w (pmy_block c) = false).
  { rewrite Hb. simpl. apply bool_decide_eq_false_2. congruence. }
  destruct (GetBlockPointer_live st Hlive) as (b' & Hb' & _ & Hg).
  simpl in Hb'. assert (b' = b) as -> by congruence.
  split; [exact Hg|].
  split_and!; intros d; unfold GetBoundsI, GetBoundsJ, GetBoundsK;
    rewrite (bind_Returns _ _ _ _ _ Hg);
    rewrite (bind_Returns _ _ _ blk st);
    try reflexivity; unfold deref_block; simpl; by rewrite Hblk.
Qed.

(** X16.  SetBlockPointer(pmb) changes the block reference and nothing
    else.  With a reference to a live block, GetBlockPointer and
    GetParentPointer then return that block and GetBoundsI/J/K read its
    cell bounds; with an empty reference GetBlockPointer then throws
    "Invalid pointer to MeshBlock!". *)
Theorem SetBlockPointer_then_GetBlockPointer (c : MeshBlockData) (w : World)
    (pmb : weak_ptr) :
  exists c',
    SetBlockPointer pmb {| this := c; world := w |} =
      Returns tt {| this := c'; world := w |} /\
    varVector_ c' = varVector_ c /\ varMap_ c' = varMap_ c /\
    faceVector_ c' = faceVector_ c /\ faceMap_ c' = faceMap_ c /\
    let st' := {| this := c'; world := w |} in
    (forall b blk, pmb = Some b -> blocks w !! b = Some blk ->
       GetBlockPointer st' = Returns b st' /\
       GetParentPointer st' = Returns b st' /\
       (forall d, GetBoundsI d st' =
                  Returns (IndexShape_GetBoundsI (cellbounds blk) d) st') /\
       (forall d, GetBoundsJ d st' =
                  Returns (IndexShape_GetBoundsJ (cellbounds blk) d) st') /\
       (forall d, GetBoundsK d st' =
                  Returns (IndexShape_GetBoundsK (cellbounds blk) d) st')) /\
    (pmb = None ->
       GetBlockPointer st' =
         Throws (runtime_error "Invalid pointer to MeshBlock!") st').
Proof.
  exists (set_pmy_block pmb c). split; [reflexivity|].
  split_and!; try reflexivity. intros st'. split.
  - intros b blk -> Hblk.
    destruct (GetBounds_live (set_pmy_block (Some b) c) w b blk eq_refl Hblk)
      as (Hg & HI & HJ & HK).
    by split_and!.
  - intros ->. by apply GetBlockPointer_expired.
Qed.

Lemma SetBlockPointer_then_GetBlockPointer_witness :
  exists c',
    SetBlockPointer (Some 5%positive)
      {| this := MeshBlockData_default; world := stage_world |} =
      Returns tt {| this := c'; world := stage_world |} /\
    GetBlockPointer {| this := c'; world := stage_world |} =
      Returns 5%positive {| this := c'; world := stage_world |}.
Proof.
  destruct (SetBlockPointer_then_GetBlockPointer MeshBlockData_default
              stage_world (Some 5%positive))
    as (c' & Hset & _ & _ & _ & _ & Hlive & _).
  exists c'. split; [exact Hset|].
  exact (proj1 (Hlive 5%positive block0 eq_refl eq_refl)).
Defined.

(** X17.  After SetBlockPointer(other), for another container whose block
    is alive, the two containers observe the same block: GetBlockPointer
    returns the same block on both, and GetBoundsI/J/K return the same
    ranges on both.  The sequences and maps of the container are
    untouched. *)
Theorem SetBlockPointer_from_shares_the_block (other c : MeshBlockData)
    (w : World) :
  expired w (pmy_block other) = false ->
  exists c' b blk,
    SetBlockPointer_from other {| this := c; world := w |} =
      Returns tt {| this := c'; world := w |} /\
    blocks w !! b = Some blk /\
    varVector_ c' = varVector_ c /\ varMap_ c' = varMap_ c /\
    faceVector_ c' = faceVector_ c /\ faceMap_ c' = faceMap_ c /\
    let st' := {| this := c'; world := w |} in
    let sto := {| this := other; world := w |} in
    GetBlockPointer st' = Returns b st' /\
    GetBlockPointer sto = Returns b sto /\
    (forall d, exists r, GetBoundsI d st' = Returns r st' /\
                         GetBoundsI d sto = Returns r sto) /\
    (forall d, exists r, GetBoundsJ d st' = Returns r st' /\
                         GetBoundsJ d sto = Returns r sto) /\
    (forall d, exists r, GetBoundsK d st' = Returns r st' /\
                         GetBoundsK d sto = Returns r sto).
Proof.
  intros Hlive.
  destruct (SetBlockPointer_from_live other c w Hlive) as (b & Hb & Hset).
  destruct (GetBlockPointer_live {| this := other; world := w |} Hlive)
    as (b' & Hb' & [blk Hblk] & _).
  simpl in *. assert (b' = b) as -> by congruence.
  exists (set_pmy_block (Some b) c), b, blk.
  split; [exact Hset|]. split; [exact Hblk|].
  destruct (GetBounds_live (set_pmy_block (Some b) c) w b blk eq_refl Hblk)
    as (Hg & HI & HJ & HK).
  destruct (GetBounds_live other w b blk Hb Hblk) as (Hg' & HI' & HJ' & HK').
  split_and!; try done; intros d; eexists; split; eauto.
Qed.

Lemma SetBlockPointer_from_shares_the_block_witness :
  exists c' b blk,
    SetBlockPointer_from base_stage
      {| this := MeshBlockData_default; world := stage_world |} =
      Returns tt {| this := c'; world := stage_world |} /\
    blocks stage_world !! b = Some blk /\
    GetBlockPointer {| this := c'; world := stage_world |} =
      Returns b {| this := c'; world := stage_world |}.
Proof.
  destruct (SetBlockPointer_from_shares_the_block base_stage
              MeshBlockData_default stage_world eq_refl)
    as (c' & b & blk & Hset & Hblk & _ & _ & _ & _ & Hg & _).
  exists c', b, blk. split; [exact Hset|]. split; [exact Hblk|]. exact Hg.
Defined.

(** ** Adding, then reading back *)

Lemma int_of_size_small n :
  (Z.of_nat n <= INT_MAX)%Z -> int_of_size n = Z.of_nat n.
Proof.
  unfold INT_MAX, int_of_size. intros H.
  rewrite Z.mod_small by lia. lia.
Qed.

Lemma Get_index_unfold c w i :
  Get_index i {| this := c; world := w |} =
    if (i <? 0)%Z then Undefined
    else match varVector_ c !! Z.to_nat i with
         | Some p => Returns p {| this := c; world := w |}
         | None => Undefined
         end.
Proof.
  unfold Get_index. munfold. simpl. destruct (i <? 0)%Z; [done|].
  by destruct (varVector_ c !! Z.to_nat i).
Qed.

(** X18.  Add and access by position.  After Add of a live record to a
    container that held n records, Get(n) returns the added record, every
    position that Get(index) could read before reads the same record, the
    position n+1 is out of range (no defined outcome: there is no check of
    the range), and Size() has grown by one, as long as the count n+1 fits
    an [int]. *)
Theorem Add_then_Get_index (c : MeshBlockData) (w : World) (var : loc)
    (v : CellVariable) :
  cells w !! var = Some v ->
  let n := Z.of_nat (length (varVector_ c)) in
  exists c',
    Add var {| this := c; world := w |} =
      Returns tt {| this := c'; world := w |} /\
    let st := {| this := c; world := w |} in
    let st' := {| this := c'; world := w |} in
    Get_index n st = Undefined /\
    Get_index n st' = Returns var st' /\
    (forall i q, Get_index i st = Returns q st ->
                 Get_index i st' = Returns q st') /\
    Get_index (n + 1) st' = Undefined /\
    ((n < INT_MAX)%Z ->
     Size st = Returns n st /\ Size st' = Returns (n + 1)%Z st').
Proof.
  intros Hv n. exists (assign_varMap (label v) var (push_var var c)).
  split; [by apply Add_Returns|]. intros st st'. unfold st, st'.
  rewrite !Get_index_unfold. simpl.
  assert (Hn : (n <? 0)%Z = false) by (apply Z.ltb_ge; lia).
  assert (Hn1 : (n + 1 <? 0)%Z = false) by (apply Z.ltb_ge; lia).
  rewrite Hn, Hn1. unfold n. rewrite Nat2Z.id.
  replace (Z.to_nat (Z.of_nat (length (varVector_ c)) + 1))
    with (S (length (varVector_ c))) by lia.
  split_and!.
  - by rewrite lookup_ge_None_2.
  - by rewrite lookup_app_r, Nat.sub_diag.
  - intros i q. rewrite !Get_index_unfold. simpl.
    destruct (i <? 0)%Z; [done|].
    destruct (varVector_ c !! Z.to_nat i) as [q'|] eqn:E; [|done].
    intros [= <-]. by rewrite (lookup_app_l_Some _ _ _ _ E).
  - rewrite lookup_ge_None_2; [done|]. rewrite length_app. simpl. lia.
  - intros Hlt. unfold Size. munfold. simpl. rewrite length_app. simpl.
    rewrite !int_of_size_small by (unfold n in Hlt; lia).
    split; [done|]. do 2 f_equal. lia.
Qed.

Lemma Add_then_Get_index_witness :
  exists c',
    Add 2%positive {| this := holds_rho_a; world := two_rho |} =
      Returns tt {| this := c'; world := two_rho |} /\
    Get_index 1 {| this := c'; world := two_rho |} =
      Returns 2%positive {| this := c'; world := two_rho |}.
Proof.
  destruct (Add_then_Get_index holds_rho_a two_rho 2%positive rho_b eq_refl)
    as (c' & Hadd & _ & Hget & _).
  exists c'. split; [exact Hadd | exact Hget].
Defined.

Lemma GetFace_unfold c w l :
  GetFace l {| this := c; world := w |} =
    match faceMap_ c !! l with
    | Some p => Returns p {| this := c; world := w |}
    | None =>
        Throws (runtime_error
                  (nl +:+ l +:+ " array not found in Get() Face" +:+ nl))
               {| this := c; world := w |}
    end.
Proof. unfold GetFace. munfold. simpl. by destruct (faceMap_ c !! l). Qed.

(** X19.  Face variables and dense variables live in separate name spaces.
    After Add of a live face record, GetFace(its label) returns that record
    and Contains(its label) is true, GetFace of every other label answers
    as before, and the dense side is untouched: HasCellVariable and Get
    answer as before for every label, the face's own label included. *)
Theorem Add_face_then_GetFace (c : MeshBlockData) (w : World) (f : loc)
    (r : FaceVariable) :
  faces w !! f = Some r ->
  exists c',
    Add_face f {| this := c; world := w |} =
      Returns tt {| this := c'; world := w |} /\
    let st := {| this := c; world := w |} in
    let st' := {| this := c'; world := w |} in
    GetFace (flabel r) st' = Returns f st' /\
    Contains (flabel r) st' = Returns true st' /\
    (forall l, l <> flabel r ->
       (forall q, GetFace l st = Returns q st -> GetFace l st' = Returns q st') /\
       (forall e, GetFace l st = Throws e st -> GetFace l st' = Throws e st')) /\
    (forall l b, HasCellVariable l st = Returns b st ->
                 HasCellVariable l st' = Returns b st') /\
    (forall l q, Get l st = Returns q st -> Get l st' = Returns q st') /\
    (forall l e, Get l st = Throws e st -> Get l st' = Throws e st').
Proof.
  intros Hf. exists (assign_faceMap (flabel r) f (push_face f c)).
  split; [by apply Add_face_Returns|]. intros st st'. unfold st, st'.
  split_and!.
  - rewrite GetFace_unfold. simpl. by rewrite lookup_insert_eq.
  - rewrite Contains_unfold. f_equal. apply bool_decide_eq_true_2.
    unfold label_set. simpl. apply elem_of_union. right.
    apply elem_of_dom. rewrite lookup_insert_eq. eauto.
  - intros l Hl. rewrite !GetFace_unfold. simpl.
    rewrite lookup_insert_ne by done.
    destruct (faceMap_ c !! l); split; intros ? [= <-]; done.
  - intros l b. rewrite !HasCellVariable_unfold. simpl. by intros [= <-].
  - intros l q. rewrite !Get_unfold. simpl.
    destruct (varMap_ c !! l); by intros [= <-].
  - intros l e. rewrite !Get_unfold. simpl.
    destruct (varMap_ c !! l); by intros [= <-].
Qed.

Lemma Add_face_then_GetFace_witness :
  exists c',
    Add_face 1%positive
      {| this := MeshBlockData_default; world := stage_world |} =
      Returns tt {| this := c'; world := stage_world |} /\
    GetFace "B" {| this := c'; world := stage_world |} =
      Returns 1%positive {| this := c'; world := stage_world |} /\
    HasCellVariable "B" {| this := c'; world := stage_world |} =
      Returns false {| this := c'; world := stage_world |}.
Proof.
  destruct (Add_face_then_GetFace MeshBlockData_default stage_world
              1%positive face_B eq_refl)
    as (c' & Hadd & Hget & _ & _ & Hhas & _).
  exists c'. split; [exact Hadd|]. split; [exact Hget|].
  apply Hhas. reflexivity.
Defined.

(** ** The size of the sequence and the number of names *)

Lemma size_map_of lab vec :
  Forall (fun p => is_Some (lab p)) vec ->
  size (map_of lab vec) <= length vec /\
  (size (map_of lab vec) = length vec <-> NoDup (lab <$> vec)).
Proof.
  induction vec as [|x vec IH] using rev_ind; intros Hall.
  - unfold map_of. simpl. rewrite map_size_empty. split; [done|].
    split; [constructor | done].
  - apply Forall_app in Hall as [Hvec Hx]. apply Forall_inv in Hx as [l Hl].
    destruct (IH Hvec) as [Hle Hiff].
    unfold map_of. rewrite foldl_snoc.
    change (foldl (bind_label lab) ∅ vec) with (map_of lab vec).
    unfold bind_label. rewrite Hl, fmap_app, length_app. simpl. rewrite Hl.
    rewrite NoDup_app.
    assert (Hin : is_Some (map_of lab vec !! l) <-> Some l ∈ lab <$> vec).
    { rewrite <- elem_of_dom, elem_of_dom_map_of, list_elem_of_fmap.
      split; intros (p & H1 & H2); exists p; done. }
    destruct (map_of lab vec !! l) as [q|] eqn:E.
    + rewrite map_size_insert_Some by eauto. split; [lia|]. split; [lia|].
      intros (_ & Hdis & _). exfalso. apply (Hdis (Some l)).
      * apply Hin. eauto.
      * by left.
    + rewrite map_size_insert_None by done. split; [lia|].
      rewrite Nat.add_1_r. split.
      * intros [= Hs]. split; [by apply Hiff|]. split; [|apply NoDup_singleton].
        intros y Hy ->%list_elem_of_singleton.
        apply Hin in Hy. by destruct Hy.
      * intros (Hnd & _ & _). f_equal. by apply Hiff.
Qed.

(** X20.  Size() counts the records of the sequence, not the names.  In a
    reachable state with at most [INT_MAX] records, the number of names of
    the dense map is at most Size(), and it equals Size() exactly when no
    two records of the sequence carry the same label. *)
Theorem Size_bounds_the_names (st : State) :
  reachable st ->
  (Z.of_nat (length (varVector_ (this st))) <= INT_MAX)%Z ->
  exists n,
    Size st = Returns n st /\
    (Z.of_nat (size (varMap_ (this st))) <= n)%Z /\
    (Z.of_nat (size (varMap_ (this st))) = n <->
     NoDup (label_at (world st) <$> varVector_ (this st))).
Proof.
  intros Hr Hlen. pose proof (reachable_state_folded st Hr) as [[Hall Hm] _].
  destruct (size_map_of _ _ Hall) as [Hle Hiff]. rewrite <- Hm in Hle, Hiff.
  exists (Z.of_nat (length (varVector_ (this st)))). split.
  - unfold Size. munfold. by rewrite int_of_size_small.
  - split; [lia|]. rewrite <- Hiff. lia.
Qed.

Lemma Size_bounds_the_names_witness :
  exists n,
    Size {| this := holds_two_rho; world := two_rho |} =
      Returns n {| this := holds_two_rho; world := two_rho |} /\
    (Z.of_nat (size (varMap_ holds_two_rho)) <= n)%Z /\
    ~ NoDup (label_at two_rho <$> varVector_ holds_two_rho).
Proof.
  destruct (Size_bounds_the_names
              {| this := holds_two_rho; world := two_rho |}
              holds_two_rho_reachable)
    as (n & Hs & Hle & Hiff).
  { vm_compute. discriminate. }
  exists n. split; [exact Hs|]. split; [exact Hle|].
  intros Hnd. apply Hiff in Hnd. injection Hs as <-.
  vm_compute in Hnd. discriminate Hnd.
Defined.

(** ** Settings of the environment *)

(** X21.  Env::get cannot tell a variable that is not set from one that is
    set to the empty string: it returns the default value in both cases.
    What the caller passes for [exists] has no influence on the result, and
    a value that is not empty is converted: taken as it is when the result
    type is [char*], extracted from a stream otherwise. *)
Theorem Env_get_default_or_converted {T : Type} (is_char_ptr : bool)
    (cast extract : string -> T) (env : gmap string string) (name : string)
    (DefaultVal : T) :
  let get := Env_get is_char_ptr cast extract in
  (forall e1 e2, get env name DefaultVal e1 = get env name DefaultVal e2) /\
  (forall e1 e2,
     get (delete name env) name DefaultVal e1 = DefaultVal /\
     get (<[name := ""]> env) name DefaultVal e2 = DefaultVal) /\
  (forall value e, env !! name = Some value -> value <> "" ->
     get env name DefaultVal e =
       if is_char_ptr then cast value else extract value).
Proof.
  intros get. unfold get, Env_get. split_and!.
  - done.
  - intros _ _. by rewrite lookup_delete_eq, lookup_insert_eq.
  - intros value _ -> Hne. by rewrite bool_decide_eq_false_2.
Qed.

Lemma Env_get_default_or_converted_witness :
  Env_get true (fun v => v) (fun v => v)
          {[ "OMP_PROC_BIND" := "close" ]} "OMP_PROC_BIND" "false" false =
    "close".
Proof.
  destruct (Env_get_default_or_converted true (fun v => v) (fun v => v)
              {[ "OMP_PROC_BIND" := "close" ]} "OMP_PROC_BIND" "false")
    as (_ & _ & H).
  apply (H "close" false); [reflexivity | discriminate].
Defined.

(** ** Deriving a container from a list of names *)

Lemma Copy_names_into_default src names vs w :
  reachable {| this := src; world := w |} ->
  expired w (pmy_block src) = false ->
  Forall2 (fun nm v => varMap_ src !! nm = Some v) names vs ->
  exists c' w',
    Copy_names src names {| this := MeshBlockData_default; world := w |} =
      Returns tt {| this := c'; world := w' |} /\
    Forall2 (taken_over w w') vs (varVector_ c') /\
    cells w ⊆ cells w' /\
    varMap_ c' = map_of (label_at w') (varVector_ c') /\
    faceMap_ c' = ∅.
Proof.
  intros Hr Hlive Hnames.
  pose proof (reachable_pointers_valid _ Hr) as [(_ & Hmap & _) _].
  simpl in Hmap.
  destruct (SetBlockPointer_from_live src MeshBlockData_default w Hlive)
    as (b & Hb & Hset).
  destruct (dense_loop vs (set_pmy_block (Some b) MeshBlockData_default) w)
    as (c1 & w1 & ps & Hl & Hv1 & Hall & Hsub & _ & _ & _ & Hfv & _).
  { eapply Forall2_Forall_r; [exact Hnames|]. apply Forall_forall.
    intros nm _ v Hv. by eapply Hmap. }
  simpl in Hv1, Hfv. subst ps.
  assert (Hc : Copy_names src names
                 {| this := MeshBlockData_default; world := w |} =
               Returns tt {| this := c1; world := w1 |}).
  { rewrite Copy_names_unfold. rewrite (bind_Returns _ _ _ _ _ Hset).
    by rewrite (names_loop _ _ _ Hnames). }
  assert (Hf : state_folded {| this := c1; world := w1 |}).
  { apply (preserves_after _ _ _ _ (folded_exec (OpCopy_names src names))
             (reachable_state_folded _ (reachable_default w))).
    simpl. by rewrite Hc. }
  destruct Hf as [[_ Hm] [_ Hfm]]. simpl in Hm, Hfm.
  exists c1, w1. split; [exact Hc|]. split; [done|]. split; [done|].
  split; [done|]. by rewrite Hfm, Hfv.
Qed.

(** X22.  Copy(src, names) selects.  For a reachable source on a live block
    that has every requested name, Copy(src, names) into a
    default-constructed container returns, and afterwards the derived
    container contains exactly the requested names: Contains(names) is
    true, Contains(name) is true for the requested names only, and
    Get(name) returns the record taken over from the one the source has
    under that name. *)
Theorem Copy_names_selects (src : MeshBlockData) (w : World)
    (names : list string) :
  reachable {| this := src; world := w |} ->
  expired w (pmy_block src) = false ->
  Forall (fun nm => is_Some (varMap_ src !! nm)) names ->
  exists c' w',
    Copy_names src names {| this := MeshBlockData_default; world := w |} =
      Returns tt {| this := c'; world := w' |} /\
    let st' := {| this := c'; world := w' |} in
    Contains_all names st' = Returns true st' /\
    (forall l, Contains l st' = Returns (bool_decide (l ∈ names)) st') /\
    (forall nm, nm ∈ names ->
       exists v p, varMap_ src !! nm = Some v /\
                   Get nm st' = Returns p st' /\ taken_over w w' v p).
Proof.
  intros Hr Hlive Hhas.
  apply Forall_exists_Forall2_l in Hhas as [vs Hnames].
  destruct (Copy_names_into_default src names vs w Hr Hlive Hnames)
    as (c' & w' & Hc & Hall & Hsub & Hm & Hfm).
  pose proof (reachable_state_inv _ Hr) as [[_ Hv2] _]. simpl in Hv2.
  assert (Hlab : Forall2 (fun nm v => label_at w v = Some nm) names vs).
  { eapply Forall2_impl; [exact Hnames|]. intros nm v Hv.
    by destruct (Hv2 nm v Hv). }
  assert (Hset : forall l, l ∈ label_set c' <-> l ∈ names).
  { intros l. unfold label_set.
    rewrite elem_of_union, Hfm, dom_empty_L, Hm, elem_of_dom_map_of.
    rewrite <- (taken_over_labels w w' _ _ l Hsub Hall). split.
    - intros [(v & [i Hi]%list_elem_of_lookup_1 & Hl)|Hnone];
        [|by apply elem_of_empty in Hnone].
      destruct (Forall2_lookup_r _ _ _ _ _ Hlab Hi) as (nm & Hnm & Hl').
      assert (nm = l) as -> by congruence.
      by eapply list_elem_of_lookup_2.
    - intros [i Hi]%list_elem_of_lookup_1. left.
      destruct (Forall2_lookup_l _ _ _ _ _ Hlab Hi) as (v & Hv & Hl).
      exists v. split; [by eapply list_elem_of_lookup_2 | done]. }
  exists c', w'. split; [exact Hc|]. intros st'. unfold st'. split_and!.
  - rewrite Contains_all_unfold. f_equal. apply bool_decide_eq_true_2.
    apply Forall_forall. intros nm Hnm. by apply Hset.
  - intros l. rewrite Contains_unfold. f_equal. apply bool_decide_ext, Hset.
  - intros nm Hnm.
    apply list_elem_of_split_r in Hnm as (pre & post & -> & Hpost).
    pose proof Hnames as Hsplit.
    apply Forall2_app_inv_l in Hsplit as (pre' & rest & _ & Hrest & Hvs).
    apply Forall2_cons_inv_l in Hrest as (v & post' & Hv & Hposts & ->).
    assert (Hlast : last_labelled (label_at w) vs nm v).
    { exists pre', post'. split; [done|]. split; [by destruct (Hv2 nm v Hv)|].
      clear -Hposts Hpost Hv2.
      induction Hposts as [|x y xs ys Hxy _ IH]; [constructor|].
      apply not_elem_of_cons in Hpost as [Hx Hxs].
      constructor; [|by apply IH].
      destruct (Hv2 x y Hxy) as [_ Hl]. congruence. }
    destruct (last_labelled_transfer (label_at w) (label_at w')
                (taken_over w w') _ _ nm v
                (fun x y => taken_over_label w w' x y Hsub) Hall Hlast)
      as (p & Hp & Hto).
    exists v, p. split; [done|]. split; [|done].
    rewrite Get_unfold. simpl. rewrite Hm.
    by rewrite (proj2 (map_of_lookup _ _ _ _) Hp).
Qed.

Lemma Copy_names_selects_witness :
  exists c' w',
    Copy_names base_stage ["p"]
      {| this := MeshBlockData_default; world := stage_world |} =
      Returns tt {| this := c'; world := w' |} /\
    Contains_all ["p"] {| this := c'; world := w' |} =
      Returns true {| this := c'; world := w' |} /\
    Contains "rho" {| this := c'; world := w' |} =
      Returns false {| this := c'; world := w' |}.
Proof.
  destruct (Copy_names_selects base_stage stage_world ["p"]
              base_stage_reachable eq_refl)
    as (c' & w' & Hc & Hall & Hone & _).
  { repeat constructor. by exists 2%positive. }
  exists c', w'. split; [exact Hc|]. split; [exact Hall|].
  rewrite (Hone "rho"). reflexivity.
Defined.
